(** * mhtml_extractor.py: MHTML archive to single-file HTML

    A shallow embedding of [MHTMLToSingleHTML] (src/mhtml_extractor.py) and
    the properties of its four stages: boundary resolution, part splitting,
    part decoding and link rewriting.

    Python values are modelled as follows.
    - [str]: a list of Unicode code points ([N]).  Every string the program
      handles is text read through the UTF-8 codec or bytes decoded as
      UTF-8 / Latin-1, so it holds scalar values only.
    - [bytes]: a list of [Byte.byte].
    - [dict]: an association list in insertion order with unique keys
      (Python dicts iterate in insertion order, and the order is observable
      through the stable sort of [_replace_links]).
    - exceptions: a [result] type; [None] of a codec is a raised exception.
    - [logging]: a list of records carried in the threaded state.

    [convert] is modelled from the text returned by [f.read()] to the text
    given to [f.write]; [universal_newlines] is what the text mode of
    line 95 does to the line endings of the decoded file. *)

From Stdlib Require Import Strings.String Strings.Ascii Strings.Byte.
From Stdlib Require Import NArith ZArith Bool Arith Lia.
From Stdlib Require Import List Permutation Sorted.
Import ListNotations.

(** ** Python [str] *)

Module PyStr.

Definition char := N.
Definition str := list char.

(** A string literal of the source, as code points. *)
Definition lit (s : string) : str :=
  map N_of_ascii (list_ascii_of_string s).
Arguments lit s%_string.

Definition str_eqb (a b : str) : bool :=
  if list_eq_dec N.eq_dec a b then true else false.

(** [s.startswith(p)] *)
Fixpoint startswith (s p : str) : bool :=
  match p, s with
  | [], _ => true
  | _ :: _, [] => false
  | a :: p', b :: s' => (a =? b)%N && startswith s' p'
  end.

(** [s.find(sub)]: index of the first occurrence, [None] for -1. *)
Fixpoint find (s sub : str) : option nat :=
  if startswith s sub then Some 0
  else match s with
       | [] => None
       | _ :: s' => option_map S (find s' sub)
       end.

(** [s.partition(sep)]: when [sep] does not occur the result is
    [(s, "", "")]. *)
Definition partition (s sep : str) : str * str * str :=
  match find s sep with
  | Some i => (firstn i s, sep, skipn (i + length sep) s)
  | None => (s, [], [])
  end.

(** [s.split(sep)] for a non-empty [sep]: non-overlapping occurrences,
    scanned left to right.  [skip] counts the characters of a matched
    separator still to be consumed; [cur] is the segment being built. *)
Fixpoint split_go (sep : str) (skip : nat) (cur : str) (s : str) : list str :=
  match s with
  | [] => [cur]
  | c :: s' =>
      match skip with
      | S k => split_go sep k cur s'
      | O => if startswith s sep
             then cur :: split_go sep (length sep - 1) [] s'
             else split_go sep 0 (cur ++ [c]) s'
      end
  end.

Definition split (s sep : str) : list str := split_go sep 0 [] s.

(** [sep.join(l)] *)
Fixpoint join (sep : str) (l : list str) : str :=
  match l with
  | [] => []
  | [x] => x
  | x :: l' => x ++ sep ++ join sep l'
  end.

(** [s.replace(old, new)]: all non-overlapping occurrences, left to right.
    For an empty [old], Python inserts [new] before every character and at
    the end. *)
Fixpoint replace_go (old new : str) (skip : nat) (s : str) : str :=
  match s with
  | [] => []
  | c :: s' =>
      match skip with
      | S k => replace_go old new k s'
      | O => if startswith s old
             then new ++ replace_go old new (length old - 1) s'
             else c :: replace_go old new 0 s'
      end
  end.

Definition replace (s old new : str) : str :=
  match old with
  | [] => new ++ flat_map (fun c => c :: new) s
  | _ :: _ => replace_go old new 0 s
  end.

(** [str.isspace] for one character (Py_UNICODE_ISSPACE). *)
Definition isspace (c : char) : bool :=
  ((9 <=? c) && (c <=? 13) || (28 <=? c) && (c <=? 32)
   || (c =? 133) || (c =? 160) || (c =? 5760)
   || (8192 <=? c) && (c <=? 8202)
   || (c =? 8232) || (c =? 8233) || (c =? 8239) || (c =? 8287)
   || (c =? 12288))%N.

Fixpoint lstrip_by (f : char -> bool) (s : str) : str :=
  match s with
  | c :: s' => if f c then lstrip_by f s' else s
  | [] => []
  end.

Definition rstrip_by (f : char -> bool) (s : str) : str :=
  rev (lstrip_by f (rev s)).

(** [s.strip()] *)
Definition strip (s : str) : str := rstrip_by isspace (lstrip_by isspace s).

(** [s.lstrip(chars)] *)
Definition lstrip (s chars : str) : str :=
  lstrip_by (fun c => existsb (N.eqb c) chars) s.

(** [s.lower()].  The table below covers the ASCII letters.  The program
    only compares the lowered transfer-encoding token with two ASCII
    literals, and no character outside ASCII lowers to text made of ASCII
    characters alone other than U+212A (to k, which occurs in neither
    literal), so the comparisons of [_decode_body] are those of Python. *)
Definition to_lower (c : char) : char :=
  if ((65 <=? c) && (c <=? 90))%N then (c + 32)%N else c.

Definition lower (s : str) : str := map to_lower s.

End PyStr.
Export PyStr.

(** ** Python [bytes] and the codecs of the standard library *)

Module Codec.

Definition bytes := list byte.

Definition byte_of_N (n : N) : byte :=
  match Byte.of_N (n mod 256) with Some b => b | None => x00 end.

Definition of_Ns (l : list N) : bytes := map byte_of_N l.
Definition to_Ns (b : bytes) : list N := map Byte.to_N b.

Definition is_ascii (s : str) : bool := forallb (fun c => c <? 128)%N s.

Local Open Scope N_scope.

(** [s.encode("utf-8")] *)
Definition encode_char (c : char) : list N :=
  if c <? 128 then [c]
  else if c <? 2048 then [192 + c / 64; 128 + c mod 64]
  else if c <? 65536 then
    [224 + c / 4096; 128 + (c / 64) mod 64; 128 + c mod 64]
  else
    [240 + c / 262144; 128 + (c / 4096) mod 64; 128 + (c / 64) mod 64;
     128 + c mod 64].

Definition encode_utf8 (s : str) : bytes := of_Ns (flat_map encode_char s).

(** [b.decode("utf-8")], strict: [None] stands for UnicodeDecodeError. *)
Definition cont (b : N) : bool := (128 <=? b) && (b <=? 191).

Definition lead3 (b0 b1 : N) : bool :=
  (b0 =? 224) && (160 <=? b1) && (b1 <=? 191)
  || (225 <=? b0) && (b0 <=? 236) && cont b1
  || (b0 =? 237) && (128 <=? b1) && (b1 <=? 159)
  || (238 <=? b0) && (b0 <=? 239) && cont b1.

Definition lead4 (b0 b1 : N) : bool :=
  (b0 =? 240) && (144 <=? b1) && (b1 <=? 191)
  || (241 <=? b0) && (b0 <=? 243) && cont b1
  || (b0 =? 244) && (128 <=? b1) && (b1 <=? 143).

Fixpoint decode_utf8_go (b : list N) : option str :=
  match b with
  | [] => Some []
  | b0 :: r0 =>
      if b0 <? 128 then option_map (cons b0) (decode_utf8_go r0)
      else
        match r0 with
        | [] => None
        | b1 :: r1 =>
            if (194 <=? b0) && (b0 <=? 223) && cont b1 then
              option_map (cons ((b0 - 192) * 64 + (b1 - 128)))
                         (decode_utf8_go r1)
            else
              match r1 with
              | [] => None
              | b2 :: r2 =>
                  if lead3 b0 b1 && cont b2 then
                    option_map
                      (cons ((b0 - 224) * 4096 + (b1 - 128) * 64 + (b2 - 128)))
                      (decode_utf8_go r2)
                  else
                    match r2 with
                    | [] => None
                    | b3 :: r3 =>
                        if lead4 b0 b1 && cont b2 && cont b3 then
                          option_map
                            (cons ((b0 - 240) * 262144 + (b1 - 128) * 4096
                                   + (b2 - 128) * 64 + (b3 - 128)))
                            (decode_utf8_go r3)
                        else None
                    end
              end
        end
  end.

Definition decode_utf8 (b : bytes) : option str := decode_utf8_go (to_Ns b).

(** [b.decode("latin-1")]: never raises. *)
Definition decode_latin1 (b : bytes) : str := to_Ns b.

(** [base64.b64encode(b).decode("utf-8")] *)
Definition b64alphabet : str :=
  lit "ABCDEFGHIJKLMNOPQRSTUVWXYZabcdefghijklmnopqrstuvwxyz0123456789+/".

Definition b64char (n : N) : char := nth (N.to_nat n) b64alphabet 0.

Fixpoint b64encode_go (b : list N) : str :=
  match b with
  | [] => []
  | [x] => [b64char (x / 4); b64char ((x mod 4) * 16); 61; 61]
  | [x; y] =>
      [b64char (x / 4); b64char ((x mod 4) * 16 + y / 16);
       b64char ((y mod 16) * 4); 61]
  | x :: y :: z :: r =>
      b64char (x / 4) :: b64char ((x mod 4) * 16 + y / 16)
      :: b64char ((y mod 16) * 4 + z / 64) :: b64char (z mod 64)
      :: b64encode_go r
  end.

Definition b64encode (b : bytes) : str := b64encode_go (to_Ns b).

(** [base64.b64decode(s)] on a [str] argument, not validating
    (binascii.a2b_base64 of CPython 3.11 and later): characters outside the
    alphabet are dropped, padding ends the input once the quad holds at
    least two characters, and an incomplete quad raises binascii.Error.  A
    string with a non-ASCII character raises ValueError. *)
Definition b64val (c : char) : option N :=
  if (65 <=? c) && (c <=? 90) then Some (c - 65)
  else if (97 <=? c) && (c <=? 122) then Some (c - 71)
  else if (48 <=? c) && (c <=? 57) then Some (c + 4)
  else if c =? 43 then Some 62
  else if c =? 47 then Some 63
  else None.

Fixpoint a2b_base64 (quad_pos : nat) (leftchar : N) (pads : nat) (s : str)
  : option (list N) :=
  match s with
  | [] => if (quad_pos =? 0)%nat then Some [] else None
  | ch :: s' =>
      if ch =? 61 then
        if (2 <=? quad_pos)%nat && (4 <=? quad_pos + S pads)%nat then Some []
        else a2b_base64 quad_pos leftchar
                        (if (2 <=? quad_pos)%nat then S pads else pads) s'
      else
        match b64val ch with
        | None => a2b_base64 quad_pos leftchar pads s'
        | Some v =>
            match quad_pos with
            | 0%nat => a2b_base64 1 v 0 s'
            | 1%nat => option_map (cons (leftchar * 4 + v / 16))
                                  (a2b_base64 2 (v mod 16) 0 s')
            | 2%nat => option_map (cons (leftchar * 16 + v / 4))
                                  (a2b_base64 3 (v mod 4) 0 s')
            | _ => option_map (cons (leftchar * 64 + v))
                              (a2b_base64 0 0 0 s')
            end
        end
  end.

Definition b64decode (s : str) : option bytes :=
  if is_ascii s then option_map of_Ns (a2b_base64 0 0 0 s) else None.

(** [quopri.decodestring(s)] on a [str] argument, that is
    binascii.a2b_qp(s, header=False): the decoder itself never raises; a
    string with a non-ASCII character raises ValueError. *)
Definition ishex (c : char) : bool :=
  (65 <=? c) && (c <=? 70) || (97 <=? c) && (c <=? 102)
  || (48 <=? c) && (c <=? 57).

Definition hexval (c : char) : N :=
  if (48 <=? c) && (c <=? 57) then c - 48
  else if (65 <=? c) && (c <=? 70) then c - 55
  else c - 87.

Fixpoint a2b_qp (skip_line : bool) (s : str) : list N :=
  match s with
  | [] => []
  | c :: s' =>
      if skip_line then a2b_qp (negb (c =? 10)) s'
      else if c =? 61 then
        match s' with
        | [] => []
        | d :: s'' =>
            if d =? 10 then a2b_qp false s''
            else if d =? 13 then a2b_qp true s''
            else if d =? 61 then 61 :: a2b_qp false s''
            else
              match s'' with
              | e :: s3 =>
                  if ishex d && ishex e
                  then (hexval d * 16 + hexval e) :: a2b_qp false s3
                  else 61 :: a2b_qp false s'
              | [] => 61 :: a2b_qp false s'
              end
        end
      else c :: a2b_qp false s'
  end.

Definition quopri_decodestring (s : str) : option bytes :=
  if is_ascii s then Some (of_Ns (a2b_qp false s)) else None.

End Codec.
Export Codec.

(** ** The regular expressions of the program

    The five patterns all have the shape  LITERAL ([^EXCLUDED]+) CLOSE?  and
    are used through [re.search(...).group(1)].  The closing character, where
    there is one, is the excluded character itself, so the greedy run is the
    maximal one and backtracking cannot help. *)

Module Re.

Record pattern := Pattern {
  literal : str;
  ignorecase : bool;
  excluded : list char;
  closing : option char
}.

Local Open Scope N_scope.

(** Simple lowercase of a character, for the characters that lower to an
    ASCII letter (A-Z, U+0130 and U+212A). *)
Definition sre_lower (c : char) : char :=
  if (65 <=? c) && (c <=? 90) then c + 32
  else if c =? 304 then 105
  else if c =? 8490 then 107
  else c.

(** A literal pattern character against a subject character.  Under
    re.IGNORECASE a letter i also matches U+0131 and a letter s also
    matches U+017F. *)
Definition chr_matches (icase : bool) (p c : char) : bool :=
  if icase then
    (sre_lower c =? to_lower p)
    || (to_lower p =? 105) && (c =? 305)
    || (to_lower p =? 115) && (c =? 383)
  else p =? c.

Fixpoint match_literal (icase : bool) (l s : str) : option str :=
  match l, s with
  | [], _ => Some s
  | _ :: _, [] => None
  | a :: l', b :: s' =>
      if chr_matches icase a b then match_literal icase l' s' else None
  end.

(** The maximal run of characters outside [ex], and what follows it. *)
Fixpoint span_excluding (ex : list char) (s : str) : str * str :=
  match s with
  | [] => ([], [])
  | c :: s' =>
      if existsb (N.eqb c) ex then ([], s)
      else let (g, r) := span_excluding ex s' in (c :: g, r)
  end.

(** A match anchored at the start of [s]; the result is group 1. *)
Definition match_here (p : pattern) (s : str) : option str :=
  match match_literal (ignorecase p) (literal p) s with
  | None => None
  | Some r =>
      match span_excluding (excluded p) r with
      | ([], _) => None
      | (g, r') =>
          match closing p with
          | None => Some g
          | Some c =>
              match r' with
              | c' :: _ => if c' =? c then Some g else None
              | [] => None
              end
          end
      end
  end.

(** [re.search(p, s)]: the leftmost position with a match. *)
Fixpoint search (p : pattern) (s : str) : option str :=
  match match_here p s with
  | Some g => Some g
  | None => match s with
            | [] => None
            | _ :: s' => search p s'
            end
  end.

End Re.

(** ** Python [dict] with [str] keys, in insertion order *)

Module Dict.

Definition dict := list (str * str).

Definition keys (d : dict) : list str := map fst d.

Fixpoint get (d : dict) (k : str) : option str :=
  match d with
  | [] => None
  | (k', v) :: d' => if str_eqb k' k then Some v else get d' k
  end.

(** [d[k] = v]: an existing key keeps its position. *)
Fixpoint set (d : dict) (k v : str) : dict :=
  match d with
  | [] => [(k, v)]
  | (k', v') :: d' =>
      if str_eqb k' k then (k', v) :: d' else (k', v') :: set d' k v
  end.

(** [sorted(l, key=len, reverse=True)]: a stable sort, equal lengths keep
    their original order. *)
Fixpoint insert_by_len (k : str) (l : list str) : list str :=
  match l with
  | [] => [k]
  | y :: l' =>
      if length y <=? length k then k :: l else y :: insert_by_len k l'
  end.

Definition sorted_by_len_desc (l : list str) : list str :=
  fold_right insert_by_len [] l.

End Dict.

(** ** The converter *)

Definition LF : char := 10%N.
Definition CR : char := 13%N.
Definition quote : char := 34%N.

Inductive exn :=
| ValueError (msg : string).

Inductive result (A : Type) :=
| Ok (a : A)
| Raise (e : exn).
Arguments Ok {A} a.
Arguments Raise {A} e.

Inductive log_record :=
| WARNING_decoding_error
| ERROR_main_html_not_found
| INFO_saved.

(** The fields of [self] that the conversion mutates, and the log. *)
Record state := State {
  boundary : option str;
  url_to_data_uri : Dict.dict;
  main_html : option str;
  log : list log_record
}.

(** [__init__] *)
Definition init : state :=
  {| boundary := None; url_to_data_uri := []; main_html := None; log := [] |}.

Definition with_boundary (st : state) (b : option str) : state :=
  {| boundary := b; url_to_data_uri := url_to_data_uri st;
     main_html := main_html st; log := log st |}.

Definition with_main_html (st : state) (h : str) : state :=
  {| boundary := boundary st; url_to_data_uri := url_to_data_uri st;
     main_html := Some h; log := log st |}.

Definition set_item (st : state) (k v : str) : state :=
  {| boundary := boundary st;
     url_to_data_uri := Dict.set (url_to_data_uri st) k v;
     main_html := main_html st; log := log st |}.

Definition logging (st : state) (l : list log_record) : state :=
  {| boundary := boundary st; url_to_data_uri := url_to_data_uri st;
     main_html := main_html st; log := log st ++ l |}.

(** Lines 18-27.  The second component is what was logged. *)
Definition _decode_body (encoding body : str) : bytes * list log_record :=
  let attempt :=
    if str_eqb encoding (lit "base64") then b64decode body
    else if str_eqb encoding (lit "quoted-printable")
         then quopri_decodestring body
    else Some (encode_utf8 body) in
  match attempt with
  | Some b => (b, [])
  | None => (encode_utf8 body, [WARNING_decoding_error])
  end.

Definition re_boundary : Re.pattern :=
  Re.Pattern (lit "boundary=" ++ [quote]) false [quote] (Some quote).
Definition re_content_type : Re.pattern :=
  Re.Pattern (lit "Content-Type: ") true [LF; 59%N] None.
Definition re_encoding : Re.pattern :=
  Re.Pattern (lit "Content-Transfer-Encoding: ") true [LF] None.
Definition re_location : Re.pattern :=
  Re.Pattern (lit "Content-Location: ") true [LF] None.
Definition re_cid : Re.pattern :=
  Re.Pattern (lit "Content-ID: <") true [62%N] (Some 62%N).

(** Lines 29-31. *)
Definition _parse_boundary (headers : str) : option str :=
  Re.search re_boundary headers.

(** Lines 33-35. *)
Definition _make_data_uri (content_type : str) (binary_data : bytes) : str :=
  lit "data:" ++ content_type ++ lit ";base64," ++ b64encode binary_data.

(** [l[1:-1]] *)
Definition slice_1_m1 {A : Type} (l : list A) : list A := removelast (tl l).

(** Lines 37-48. *)
Definition _extract_parts (st : state) (content : str)
  : result (state * list str) :=
  match find content [LF; LF] with
  | None => Raise (ValueError "Invalid MHTML structure")
  | Some header_end =>
      let header_block := firstn header_end content in
      let st := with_boundary st (_parse_boundary header_block) in
      match boundary st with
      | None | Some [] =>
          Raise (ValueError "No boundary found in MHTML headers")
      | Some b =>
          let boundary := lit "--" ++ b in
          let parts := split content boundary in
          Ok (st, slice_1_m1 parts)
      end
  end.

(** Lines 50-84. *)
Definition _process_part (st : state) (part : str) : state :=
  let part := lstrip (strip part) [CR; LF] in
  match part with
  | [] => st
  | _ :: _ =>
      let '(headers, _, body) := partition part [LF; LF] in
      let headers := replace headers [CR; LF] [LF] in
      let body := replace body [CR; LF] [LF] in
      let content_type_match := Re.search re_content_type headers in
      let encoding_match := Re.search re_encoding headers in
      let location_match := Re.search re_location headers in
      let cid_match := Re.search re_cid headers in
      let content_type :=
        match content_type_match with
        | Some g => strip g
        | None => lit "application/octet-stream"
        end in
      let encoding :=
        match encoding_match with
        | Some g => lower (strip g)
        | None => lit "7bit"
        end in
      let (decoded, logged) := _decode_body encoding body in
      let st := logging st logged in
      match startswith content_type (lit "text/html"), main_html st with
      | true, None =>
          with_main_html st
            match decode_utf8 decoded with
            | Some text => text
            | None => decode_latin1 decoded
            end
      | _, _ =>
          let data_uri := _make_data_uri content_type decoded in
          let st :=
            match location_match with
            | Some g => set_item st (strip g) data_uri
            | None => st
            end in
          match cid_match with
          | Some g => set_item st (lit "cid:" ++ strip g) data_uri
          | None => st
          end
      end
  end.

(** Lines 86-92, on the two fields it reads.  [convert] calls it only when
    [main_html] is set.  The lookup cannot miss: [original] is a key. *)
Definition _replace_links (main_html : str) (url_to_data_uri : Dict.dict)
  : str :=
  fold_left
    (fun html original =>
       match Dict.get url_to_data_uri original with
       | Some data_uri => replace html original data_uri
       | None => html
       end)
    (Dict.sorted_by_len_desc (Dict.keys url_to_data_uri))
    main_html.

Inductive outcome :=
| Raised (e : exn)                                (* nothing written *)
| NotWritten (logged : list log_record)           (* returns at line 105 *)
| Written (final_html : str) (logged : list log_record).

(** Lines 94-112, from the text read at line 96 to what is written at
    line 110. *)
Definition convert (content : str) : outcome :=
  match _extract_parts init content with
  | Raise e => Raised e
  | Ok (st, parts) =>
      let st := fold_left _process_part parts st in
      match main_html st with
      | None => NotWritten (log st ++ [ERROR_main_html_not_found])
      | Some html =>
          Written (_replace_links html (url_to_data_uri st))
                  (log st ++ [INFO_saved])
      end
  end.

(** ** What [_process_part] computes from one raw part

    The local variables of [_process_part], as functions of the raw part. *)

Definition part_text (part : str) : str := lstrip (strip part) [CR; LF].

Definition headers_of (part : str) : str :=
  replace (fst (fst (partition (part_text part) [LF; LF]))) [CR; LF] [LF].

Definition body_of (part : str) : str :=
  replace (snd (partition (part_text part) [LF; LF])) [CR; LF] [LF].

Definition content_type_of (part : str) : str :=
  match Re.search re_content_type (headers_of part) with
  | Some g => strip g
  | None => lit "application/octet-stream"
  end.

Definition encoding_of (part : str) : str :=
  match Re.search re_encoding (headers_of part) with
  | Some g => lower (strip g)
  | None => lit "7bit"
  end.

Definition location_of (part : str) : option str :=
  option_map strip (Re.search re_location (headers_of part)).

Definition cid_of (part : str) : option str :=
  option_map strip (Re.search re_cid (headers_of part)).

Definition decoded_of (part : str) : bytes :=
  fst (_decode_body (encoding_of part) (body_of part)).

Definition logged_of (part : str) : list log_record :=
  snd (_decode_body (encoding_of part) (body_of part)).

(** Lines 70-73. *)
Definition decode_text (b : bytes) : str :=
  match decode_utf8 b with
  | Some text => text
  | None => decode_latin1 b
  end.

Definition is_html (part : str) : bool :=
  startswith (content_type_of part) (lit "text/html").

Definition data_uri_of (part : str) : str :=
  _make_data_uri (content_type_of part) (decoded_of part).

(** Lines 76-84: the data-URI synthesis path. *)
Definition store_resource (st : state) (part : str) : state :=
  let st := logging st (logged_of part) in
  let st := match location_of part with
            | Some k => set_item st k (data_uri_of part)
            | None => st
            end in
  match cid_of part with
  | Some id => set_item st (lit "cid:" ++ id) (data_uri_of part)
  | None => st
  end.

(** Lines 69-74: the part becomes the primary HTML. *)
Definition store_main_html (st : state) (part : str) : state :=
  with_main_html (logging st (logged_of part)) (decode_text (decoded_of part)).

Definition run (parts : list str) (st : state) : state :=
  fold_left _process_part parts st.

(** ** Vocabulary of the statements *)

Definition occurs (sub s : str) : Prop :=
  exists pre post, s = pre ++ sub ++ post.

Definition outside (ex : list char) (c : char) : Prop :=
  existsb (N.eqb c) ex = false.






(** [h] contains  boundary="v"  with a non-empty, quote-free [v]. *)
Definition has_boundary_param (h : str) : Prop :=
  exists pre v post,
    h = pre ++ (lit "boundary=" ++ [quote]) ++ v ++ [quote] ++ post
    /\ v <> [] /\ ~ In quote v.

(** The text before the first blank line (line 41). *)
Definition header_block (content : str) : option str :=
  option_map (fun header_end => firstn header_end content)
             (find content [LF; LF]).

(** ** Sample inputs *)

Definition sample_image : str :=
  [LF] ++ lit "Content-Type: image/png" ++ [LF]
  ++ lit "Content-Transfer-Encoding: base64" ++ [LF]
  ++ lit "Content-Location: img/logo.png" ++ [LF]
  ++ lit "Content-ID: <logo>" ++ [LF; LF] ++ lit "iVBORw0KGgo=" ++ [LF].

Definition sample_html : str :=
  [LF] ++ lit "Content-Type: text/html; charset=utf-8" ++ [LF; LF]
  ++ lit "<img src=cid:logo>" ++ [LF].

Definition sample_html2 : str :=
  [LF] ++ lit "Content-Type: text/html" ++ [LF]
  ++ lit "Content-Location: frame.html" ++ [LF; LF]
  ++ lit "<p>second</p>" ++ [LF].

Definition sample_dict : Dict.dict :=
  [(lit "img/a.png", lit "data:image/png;base64,AAAA");
   (lit "img/a.png?v=2", lit "data:image/png;base64,BBBB")].

Definition sample_page : str :=
  lit "<img src=img/a.png?v=2><img src=img/a.png>".

Definition sample_document : str :=
  lit "MIME-Version: 1.0" ++ [LF]
  ++ lit "Content-Type: multipart/related; boundary=" ++ [quote]
  ++ lit "XYZ" ++ [quote] ++ [LF; LF]
  ++ lit "--XYZ" ++ sample_html
  ++ lit "--XYZ" ++ [LF]
  ++ lit "--XYZ" ++ sample_image
  ++ lit "--XYZ--" ++ [LF].

Definition sample_plain_document : str :=
  lit "Content-Type: multipart/related; boundary=" ++ [quote]
  ++ lit "XYZ" ++ [quote] ++ [LF; LF]
  ++ lit "--XYZ" ++ [LF] ++ lit "Content-Type: text/html" ++ [LF; LF]
  ++ lit "<p>hello</p>" ++ [LF]
  ++ lit "--XYZ" ++ sample_image
  ++ lit "--XYZ--" ++ [LF].

Definition part_crlf : str :=
  lit "Content-Location: a" ++ [CR; LF; CR; LF] ++ lit "BODY".

Definition part_lf : str :=
  lit "Content-Location: a" ++ [LF; LF] ++ lit "BODY".

Definition part_no_blank_line : str := lit "Content-Location: x".

(** ** Vocabulary of the further properties *)

(** What processing one part appends to the log. *)
Definition part_log (part : str) : list log_record :=
  match part_text part with
  | [] => []
  | _ :: _ => logged_of part
  end.

(** The part stores its data URI under key [k] (lines 78-84). *)
Definition registers (part k : str) : Prop :=
  location_of part = Some k
  \/ exists id, cid_of part = Some id /\ k = lit "cid:" ++ id.

(** A Unicode scalar value: a code point that is not a surrogate. *)
Definition is_scalar (c : char) : bool :=
  ((c <? 55296) || (57344 <=? c) && (c <? 1114112))%N.

(** Lines 95-96: [open(path, "r", ...)] reads in text mode with universal
    newlines, so in the text returned by [f.read()] every CR LF and every
    other CR of the decoded file has become LF. *)
Fixpoint universal_newlines (s : str) : str :=
  match s with
  | [] => []
  | c :: s' =>
      if (c =? CR)%N then
        LF :: match s' with
              | d :: s'' =>
                  if (d =? LF)%N then universal_newlines s''
                  else universal_newlines s'
              | [] => []
              end
      else c :: universal_newlines s'
  end.

(** [k] is [raw] without its leading and trailing whitespace. *)
Definition trimmed_of (raw k : str) : Prop :=
  (exists ws1 ws2,
      raw = ws1 ++ k ++ ws2
      /\ forallb isspace ws1 = true /\ forallb isspace ws2 = true)
  /\ (forall c r, k = c :: r -> isspace c = false)
  /\ (forall r c, k = r ++ [c] -> isspace c = false).

(** Somewhere in [headers] the literal of [p] matches, followed by [raw],
    the non-empty maximal run of characters outside the excluded ones, and
    then by the closing character when [p] has one. *)
Definition header_match (p : Re.pattern) (headers raw : str) : Prop :=
  exists pre t rest,
    headers = pre ++ t
    /\ Re.match_literal (Re.ignorecase p) (Re.literal p) t = Some (raw ++ rest)
    /\ raw <> []
    /\ Forall (outside (Re.excluded p)) raw
    /\ (rest = []
        \/ exists c r,
             rest = c :: r /\ existsb (N.eqb c) (Re.excluded p) = true)
    /\ (forall c, Re.closing p = Some c -> exists r, rest = c :: r).

Definition sample_padded : str :=
  lit "Content-Type: image/png" ++ [LF]
  ++ lit "Content-Transfer-Encoding: base64" ++ [LF]
  ++ lit "content-location:   img/logo.png  " ++ [LF]
  ++ lit "Content-ID: < logo >" ++ [LF; LF] ++ lit "iVBORw0KGgo=".





Definition sample_lines : list str :=
  [lit "Content-Type: multipart/related; boundary=" ++ [quote]
   ++ lit "XYZ" ++ [quote];
   [];
   lit "--XYZ";
   lit "Content-Type: text/html";
   [];
   lit "<p>hello</p>";
   lit "--XYZ";
   lit "Content-Location: a";
   [];
   lit "BODY";
   lit "--XYZ--"].

(** ** Facts about the string operations *)

Section StrFacts.

Lemma str_eqb_eq a b : str_eqb a b = true <-> a = b.
Proof.
  unfold str_eqb. destruct (list_eq_dec N.eq_dec a b); split; congruence.
Qed.

Lemma str_eqb_refl a : str_eqb a a = true.
Proof. now apply str_eqb_eq. Qed.

Lemma str_eqb_neq a b : str_eqb a b = false <-> a <> b.
Proof.
  unfold str_eqb. destruct (list_eq_dec N.eq_dec a b); split; congruence.
Qed.

Lemma startswith_nil s : startswith s [] = true.
Proof. now destruct s. Qed.

Lemma startswith_spec s p : startswith s p = true <-> exists r, s = p ++ r.
Proof.
  revert s. induction p as [|a p IH]; intros s.
  - rewrite startswith_nil. split; trivial. intros _. now exists s.
  - destruct s as [|b s]; simpl.
    + split; [discriminate | intros [r H]; discriminate].
    + rewrite andb_true_iff, N.eqb_eq, IH. split.
      * intros [-> [r ->]]. now exists r.
      * intros [r H]. injection H as -> ->. eauto.
Qed.

Lemma startswith_app p r : startswith (p ++ r) p = true.
Proof. apply startswith_spec. eauto. Qed.

Lemma startswith_length s p :
  startswith s p = true -> length p <= length s.
Proof.
  intros H. apply startswith_spec in H as [r ->].
  rewrite length_app. lia.
Qed.

Lemma find_eq s sub :
  find s sub =
  if startswith s sub then Some 0
  else match s with
       | [] => None
       | _ :: s' => option_map S (find s' sub)
       end.
Proof. now destruct s. Qed.

Lemma find_Some s sub i :
  find s sub = Some i ->
  s = firstn i s ++ sub ++ skipn (i + length sub) s.
Proof.
  revert i. induction s as [|c s IH]; intros i; rewrite find_eq.
  - destruct (startswith [] sub) eqn:E; [|discriminate].
    intros [= <-]. apply startswith_spec in E as [r E].
    destruct sub; [reflexivity | discriminate].
  - destruct (startswith (c :: s) sub) eqn:E.
    + intros [= <-]. apply startswith_spec in E as [r E].
      cbn [firstn app Nat.add]. rewrite E at 1. f_equal.
      rewrite E, skipn_app, skipn_all, Nat.sub_diag. reflexivity.
    + destruct (find s sub) as [j|] eqn:F; simpl; [|discriminate].
      intros [= <-]. simpl. f_equal. now apply IH.
Qed.

Lemma find_occurs s sub i : find s sub = Some i -> occurs sub s.
Proof. intros H. apply find_Some in H. red. eauto. Qed.

Lemma find_None s sub : find s sub = None <-> ~ occurs sub s.
Proof.
  split.
  - induction s as [|c s IH]; rewrite find_eq.
    + destruct (startswith [] sub) eqn:E; [discriminate|].
      intros _ (pre & post & H).
      destruct pre; [|discriminate]. destruct sub; discriminate.
    + destruct (startswith (c :: s) sub) eqn:E; [discriminate|].
      destruct (find s sub) eqn:F; [discriminate|].
      intros _ (pre & post & H). destruct pre as [|x pre].
      * simpl in H. rewrite H, startswith_app in E. discriminate.
      * injection H as -> H. apply IH; trivial. red. eauto.
  - intros H. destruct (find s sub) eqn:F; trivial.
    exfalso. eauto using find_occurs.
Qed.

Lemma find_length s sub i :
  find s sub = Some i -> i + length sub <= length s.
Proof.
  revert i. induction s as [|c s IH]; intros i; rewrite find_eq.
  - destruct (startswith [] sub) eqn:E; [|discriminate].
    intros [= <-]. now apply startswith_length in E.
  - destruct (startswith (c :: s) sub) eqn:E.
    + intros [= <-]. now apply startswith_length in E.
    + destruct (find s sub) as [j|] eqn:F; simpl; [|discriminate].
      intros [= <-]. specialize (IH j eq_refl). simpl. lia.
Qed.

Lemma find_nil_sub s : find s [] = Some 0.
Proof. rewrite find_eq, startswith_nil. reflexivity. Qed.

Lemma find_firstn_None s sub i :
  sub <> [] -> find s sub = Some i -> find (firstn i s) sub = None.
Proof.
  intros Hsub. revert i.
  induction s as [|c s IH]; intros i; rewrite find_eq.
  - destruct (startswith [] sub) eqn:E; [|discriminate].
    destruct sub; [congruence | discriminate].
  - destruct (startswith (c :: s) sub) eqn:E.
    + intros [= <-]. simpl. destruct sub; [congruence | reflexivity].
    + destruct (find s sub) as [j|] eqn:F; simpl; [|discriminate].
      intros [= <-]. cbn [firstn]. rewrite find_eq.
      destruct (startswith (c :: firstn j s) sub) eqn:E'.
      * apply startswith_spec in E' as [r E'].
        assert (startswith (c :: s) sub = true); [|congruence].
        apply startswith_spec. exists (r ++ skipn j s).
        rewrite app_assoc, <- E'. simpl. now rewrite firstn_skipn.
      * now rewrite IH.
Qed.

(** *** [split] *)

Lemma split_go_skip sep k cur s :
  k <= length s -> split_go sep k cur s = split_go sep 0 cur (skipn k s).
Proof.
  revert k. induction s as [|c s IH]; intros k Hk.
  - destruct k; [reflexivity | simpl in Hk; lia].
  - destruct k; [reflexivity|]. simpl in Hk. simpl. apply IH. lia.
Qed.

Lemma split_go_eq sep cur s :
  sep <> [] ->
  split_go sep 0 cur s =
  match find s sep with
  | None => [cur ++ s]
  | Some i =>
      (cur ++ firstn i s) :: split_go sep 0 [] (skipn (i + length sep) s)
  end.
Proof.
  intros Hsep. revert cur. induction s as [|c s IH]; intros cur.
  - rewrite find_eq. destruct sep; [congruence|]. simpl.
    now rewrite app_nil_r.
  - rewrite find_eq. cbn [split_go].
    destruct (startswith (c :: s) sep) eqn:E.
    + cbn [firstn Nat.add]. rewrite app_nil_r. f_equal.
      apply startswith_length in E. simpl in E.
      rewrite split_go_skip by lia.
      destruct sep; [congruence|]. simpl. now rewrite Nat.sub_0_r.
    + rewrite IH. destruct (find s sep) as [j|]; simpl.
      * now rewrite <- app_assoc.
      * now rewrite <- app_assoc.
Qed.

Lemma split_eq s sep :
  sep <> [] ->
  split s sep =
  match find s sep with
  | None => [s]
  | Some i => firstn i s :: split (skipn (i + length sep) s) sep
  end.
Proof. intros H. unfold split. now rewrite split_go_eq. Qed.

(** Induction along the occurrences that [split] cuts at. *)
Lemma split_ind sep (P : str -> list str -> Prop) :
  sep <> [] ->
  (forall s, find s sep = None -> P s [s]) ->
  (forall s i, find s sep = Some i ->
     let rest := skipn (i + length sep) s in
     P rest (split rest sep) -> P s (firstn i s :: split rest sep)) ->
  forall s, P s (split s sep).
Proof.
  intros Hsep Hnone Hsome s.
  remember (length s) as n eqn:Hn. revert s Hn.
  induction n as [n IH] using lt_wf_ind. intros s ->.
  rewrite split_eq by trivial.
  destruct (find s sep) as [i|] eqn:F; [|now apply Hnone].
  apply Hsome; trivial.
  apply (IH (length (skipn (i + length sep) s))); trivial.
  rewrite length_skipn. apply find_length in F.
  destruct sep; [congruence|]. simpl in *. lia.
Qed.

Lemma split_nonempty s sep : sep <> [] -> split s sep <> [].
Proof.
  intros H. rewrite split_eq by trivial. destruct (find s sep); discriminate.
Qed.

Lemma join_cons sep x l :
  l <> [] -> join sep (x :: l) = x ++ sep ++ join sep l.
Proof. destruct l; [congruence | reflexivity]. Qed.

Lemma join_split s sep : sep <> [] -> join sep (split s sep) = s.
Proof.
  intros Hsep. apply (split_ind sep (fun s l => join sep l = s)); trivial.
  intros s0 i F rest IH.
  rewrite join_cons by now apply split_nonempty.
  rewrite IH. symmetry. now apply find_Some.
Qed.

Lemma split_segments_free s sep :
  sep <> [] -> Forall (fun seg => find seg sep = None) (split s sep).
Proof.
  intros Hsep.
  apply (split_ind sep
           (fun _ l => Forall (fun seg => find seg sep = None) l));
    trivial.
  - intros s0 F. now constructor.
  - intros s0 i F rest IH. constructor; trivial.
    now apply find_firstn_None.
Qed.

(** *** [replace] *)

Lemma replace_go_skip old new k s :
  k <= length s ->
  replace_go old new k s = replace_go old new 0 (skipn k s).
Proof.
  revert k. induction s as [|c s IH]; intros k Hk.
  - destruct k; [reflexivity | simpl in Hk; lia].
  - destruct k; [reflexivity|]. simpl in Hk. simpl. apply IH. lia.
Qed.

Lemma replace_eq s old new :
  old <> [] ->
  replace s old new =
  match find s old with
  | None => s
  | Some i =>
      firstn i s ++ new ++ replace (skipn (i + length old) s) old new
  end.
Proof.
  intros Hold. unfold replace.
  destruct old as [|a old']; [congruence|].
  set (old := a :: old') in *.
  induction s as [|c s IH].
  - reflexivity.
  - rewrite find_eq. cbn [replace_go].
    destruct (startswith (c :: s) old) eqn:E.
    + cbn [firstn Nat.add app]. f_equal.
      apply startswith_length in E. simpl in E.
      rewrite replace_go_skip by (simpl; lia).
      simpl. now rewrite Nat.sub_0_r.
    + rewrite IH. destruct (find s old) as [j|]; reflexivity.
Qed.

Lemma replace_absent s old new :
  find s old = None -> replace s old new = s.
Proof.
  intros F. destruct old as [|a old].
  - rewrite find_nil_sub in F. discriminate.
  - rewrite replace_eq by discriminate. now rewrite F.
Qed.

(** *** [strip] *)

Lemma lstrip_by_app f a b :
  lstrip_by f (a ++ b) =
  if forallb f a then lstrip_by f b else lstrip_by f a ++ b.
Proof.
  induction a as [|c a IH]; [reflexivity|]. simpl.
  destruct (f c); [exact IH | reflexivity].
Qed.

Lemma lstrip_by_all f a : forallb f a = true -> lstrip_by f a = [].
Proof.
  intros H. rewrite <- (app_nil_r a), lstrip_by_app, H. reflexivity.
Qed.

Lemma lstrip_by_decomp f s :
  exists ws, s = ws ++ lstrip_by f s /\ forallb f ws = true.
Proof.
  induction s as [|c s (ws & E & H)]; [now exists []|]. simpl.
  destruct (f c) eqn:Fc.
  - exists (c :: ws). simpl. rewrite Fc, H. split; [now f_equal | reflexivity].
  - now exists [].
Qed.

Lemma lstrip_by_head f s c r : lstrip_by f s = c :: r -> f c = false.
Proof.
  induction s as [|x s IH]; [discriminate|]. simpl.
  destruct (f x) eqn:Fx; [exact IH|]. now intros [= -> _].
Qed.

Lemma lstrip_by_id f s :
  (forall c r, s = c :: r -> f c = false) -> lstrip_by f s = s.
Proof.
  destruct s as [|c r]; [reflexivity|]. intros H. simpl.
  now rewrite (H c r eq_refl).
Qed.

Lemma forallb_rev (f : char -> bool) l : forallb f (rev l) = forallb f l.
Proof.
  induction l as [|c l IH]; [reflexivity|]. simpl.
  rewrite forallb_app, IH. simpl. rewrite andb_true_r. apply andb_comm.
Qed.

Lemma rstrip_by_app f a b :
  forallb f b = true -> rstrip_by f (a ++ b) = rstrip_by f a.
Proof.
  intros H. unfold rstrip_by. rewrite rev_app_distr, lstrip_by_app.
  now rewrite forallb_rev, H.
Qed.

Lemma rstrip_by_decomp f s :
  exists ws, s = rstrip_by f s ++ ws /\ forallb f ws = true.
Proof.
  destruct (lstrip_by_decomp f (rev s)) as (ws & E & H).
  exists (rev ws). unfold rstrip_by. split.
  - rewrite <- rev_app_distr, <- E. now rewrite rev_involutive.
  - now rewrite forallb_rev.
Qed.

Lemma rstrip_by_last f s r c : rstrip_by f s = r ++ [c] -> f c = false.
Proof.
  unfold rstrip_by. intros H. apply (f_equal (@rev _)) in H.
  rewrite rev_involutive, rev_app_distr in H. simpl in H.
  eauto using lstrip_by_head.
Qed.

Lemma strip_pad ws1 s ws2 :
  forallb isspace ws1 = true -> forallb isspace ws2 = true ->
  strip (ws1 ++ s ++ ws2) = strip s.
Proof.
  intros H1 H2. unfold strip. rewrite lstrip_by_app, H1, lstrip_by_app.
  destruct (forallb isspace s) eqn:E.
  - rewrite (lstrip_by_all _ _ E), (lstrip_by_all _ _ H2). reflexivity.
  - now apply rstrip_by_app.
Qed.

Lemma strip_all_space s : forallb isspace s = true -> strip s = [].
Proof. intros H. unfold strip. now rewrite lstrip_by_all. Qed.

Lemma strip_head s c r : strip s = c :: r -> isspace c = false.
Proof.
  unfold strip. intros H.
  destruct (rstrip_by_decomp isspace (lstrip_by isspace s)) as (ws & E & _).
  rewrite H in E. simpl in E. eauto using lstrip_by_head.
Qed.

Lemma strip_last s r c : strip s = r ++ [c] -> isspace c = false.
Proof. unfold strip. apply rstrip_by_last. Qed.

Lemma strip_decomp s :
  exists ws1 ws2,
    s = ws1 ++ strip s ++ ws2
    /\ forallb isspace ws1 = true /\ forallb isspace ws2 = true.
Proof.
  destruct (lstrip_by_decomp isspace s) as (ws1 & E1 & H1).
  destruct (rstrip_by_decomp isspace (lstrip_by isspace s)) as (ws2 & E2 & H2).
  exists ws1, ws2. unfold strip. now rewrite <- E2, <- E1.
Qed.

Lemma strip_clean s :
  (forall c, In c s -> isspace c = false) -> strip s = s.
Proof.
  intros H. unfold strip, rstrip_by.
  rewrite (lstrip_by_id isspace s).
  - rewrite lstrip_by_id; [apply rev_involutive|].
    intros c r E. apply H, in_rev. rewrite E. now left.
  - intros c r ->. apply H. now left.
Qed.

Lemma to_lower_space c : isspace (to_lower c) = false -> isspace c = false.
Proof.
  unfold to_lower.
  destruct ((65 <=? c) && (c <=? 90))%N eqn:U; trivial. intros _.
  apply andb_true_iff in U as [L R].
  apply N.leb_le in L, R.
  destruct (isspace c) eqn:E; trivial. exfalso. unfold isspace in E.
  repeat (apply orb_true_iff in E as [E|E]);
    rewrite ?andb_true_iff, ?N.leb_le, ?N.eqb_eq in E; lia.
Qed.

(** A token that lowers to a name without whitespace is not changed by
    [strip], whatever whitespace surrounds it. *)
Lemma lower_strip_padded ws1 t ws2 :
  forallb isspace ws1 = true -> forallb isspace ws2 = true ->
  (forall c, In c (lower t) -> isspace c = false) ->
  lower (strip (ws1 ++ t ++ ws2)) = lower t.
Proof.
  intros H1 H2 Hc. rewrite strip_pad by trivial.
  rewrite strip_clean; trivial.
  intros c Hin. apply to_lower_space, Hc. unfold lower. now apply in_map.
Qed.

(** After [strip()], [lstrip("\r\n")] has nothing left to remove. *)
Lemma lstrip_crlf_strip s : lstrip (strip s) [13; 10]%N = strip s.
Proof.
  apply lstrip_by_id. intros c r H. apply strip_head in H.
  simpl. destruct (N.eqb_spec c 13) as [->|]; [discriminate|].
  destruct (N.eqb_spec c 10) as [->|]; [discriminate|]. reflexivity.
Qed.

End StrFacts.

(** ** Facts about the dictionary and the sort *)

Section DictFacts.
Import Dict.

Lemma get_set_same d k v : get (set d k v) k = Some v.
Proof.
  induction d as [|[k' v'] d IH]; simpl.
  - now rewrite str_eqb_refl.
  - destruct (str_eqb k' k) eqn:E; simpl; rewrite E; trivial.
Qed.

Lemma get_set_other d k v k' : k' <> k -> get (set d k v) k' = get d k'.
Proof.
  intros Hne. induction d as [|[k0 v0] d IH]; simpl.
  - destruct (str_eqb k k') eqn:E; trivial.
    apply str_eqb_eq in E. congruence.
  - destruct (str_eqb k0 k) eqn:E; simpl.
    + destruct (str_eqb k0 k') eqn:E'; trivial.
      apply str_eqb_eq in E, E'. congruence.
    + now rewrite IH.
Qed.

Lemma keys_set d k v :
  keys (set d k v) = if in_dec (list_eq_dec N.eq_dec) k (keys d)
                     then keys d else keys d ++ [k].
Proof.
  induction d as [|[k0 v0] d IH]; [reflexivity|]. simpl.
  destruct (str_eqb k0 k) eqn:E.
  - apply str_eqb_eq in E. subst.
    destruct (list_eq_dec N.eq_dec k k); [reflexivity | congruence].
  - apply str_eqb_neq in E. simpl.
    destruct (list_eq_dec N.eq_dec k0 k); [congruence|].
    rewrite IH. now destruct (in_dec (list_eq_dec N.eq_dec) k (keys d)).
Qed.

Lemma NoDup_keys_set d k v : NoDup (keys d) -> NoDup (keys (set d k v)).
Proof.
  intros H. rewrite keys_set.
  destruct (in_dec (list_eq_dec N.eq_dec) k (keys d)) as [|Hn]; trivial.
  apply NoDup_rev in H. rewrite <- (rev_involutive (keys d ++ [k])).
  apply NoDup_rev. rewrite rev_app_distr. simpl.
  constructor; trivial. now rewrite <- in_rev.
Qed.



Lemma insert_by_len_perm k l : Permutation (insert_by_len k l) (k :: l).
Proof.
  induction l as [|y l IH]; simpl; [reflexivity|].
  destruct (length y <=? length k); [reflexivity|].
  rewrite IH. apply perm_swap.
Qed.

Lemma sorted_by_len_desc_perm l : Permutation (sorted_by_len_desc l) l.
Proof.
  induction l as [|k l IH]; simpl; [reflexivity|].
  rewrite insert_by_len_perm. now constructor.
Qed.





End DictFacts.

(** ** Facts about the pattern search *)

Section ReFacts.
Import Re.

Lemma match_literal_exact l s r :
  match_literal false l s = Some r <-> s = l ++ r.
Proof.
  revert s. induction l as [|a l IH]; intros s.
  - destruct s; simpl; split; congruence.
  - destruct s as [|b s]; simpl; [split; discriminate|].
    destruct (N.eqb_spec a b) as [->|Hne].
    + rewrite IH. split; congruence.
    + split; [discriminate | congruence].
Qed.

Lemma span_excluding_spec ex s g r :
  span_excluding ex s = (g, r) ->
  s = g ++ r /\ Forall (outside ex) g
  /\ (r = [] \/ exists c r', r = c :: r' /\ existsb (N.eqb c) ex = true).
Proof.
  revert g r. induction s as [|c s IH]; intros g r; simpl.
  - intros [= <- <-]. auto.
  - destruct (existsb (N.eqb c) ex) eqn:E.
    + intros [= <- <-]. repeat split; eauto.
    + destruct (span_excluding ex s) as [g0 r0].
      intros [= <- <-]. destruct (IH _ _ eq_refl) as (-> & Hg & Hr).
      repeat split; trivial. now constructor.
Qed.

Lemma span_excluding_app ex g r :
  Forall (outside ex) g ->
  (r = [] \/ exists c r', r = c :: r' /\ existsb (N.eqb c) ex = true) ->
  span_excluding ex (g ++ r) = (g, r).
Proof.
  intros Hg Hr. induction Hg as [|c g Hc Hg IH]; simpl.
  - destruct Hr as [->|(c & r' & -> & Hc)]; simpl; [reflexivity|].
    now rewrite Hc.
  - red in Hc. now rewrite Hc, IH.
Qed.

Lemma match_here_nonempty p s g : match_here p s = Some g -> g <> [].
Proof.
  unfold match_here.
  destruct (match_literal _ _ s) as [r|]; [|discriminate].
  destruct (span_excluding _ r) as [[|c g0] r']; [discriminate|].
  destruct (closing p) as [cl|].
  - destruct r' as [|c' r']; [discriminate|].
    destruct (c' =? cl)%N; [|discriminate]. now intros [= <-].
  - now intros [= <-].
Qed.

Lemma search_eq p s :
  search p s =
  match match_here p s with
  | Some g => Some g
  | None => match s with
            | [] => None
            | _ :: s' => search p s'
            end
  end.
Proof. now destruct s. Qed.

Lemma search_Some p s g :
  search p s = Some g ->
  exists pre t, s = pre ++ t /\ match_here p t = Some g.
Proof.
  induction s as [|c s IH]; rewrite search_eq.
  - destruct (match_here p []) eqn:E; [|discriminate].
    intros [= ->]. now exists [], [].
  - destruct (match_here p (c :: s)) eqn:E.
    + intros [= ->]. now exists [], (c :: s).
    + intros H. destruct (IH H) as (pre & t & -> & Ht).
      now exists (c :: pre), t.
Qed.

Lemma search_None p s :
  search p s = None ->
  forall pre t, s = pre ++ t -> match_here p t = None.
Proof.
  induction s as [|c s IH]; rewrite search_eq.
  - destruct (match_here p []) eqn:E; [discriminate|].
    intros _ pre t H. symmetry in H. apply app_eq_nil in H as [_ ->].
    exact E.
  - destruct (match_here p (c :: s)) eqn:E; [discriminate|].
    intros H [|x pre] t Ht; simpl in Ht.
    + now subst.
    + injection Ht as _ Ht. eauto.
Qed.

Lemma search_nonempty p s g : search p s = Some g -> g <> [].
Proof.
  intros H. apply search_Some in H as (pre & t & _ & H).
  eauto using match_here_nonempty.
Qed.

End ReFacts.

(** ** Facts about [_process_part] *)

Section ProcessPart.

Lemma _process_part_eq st part :
  _process_part st part =
  match part_text part with
  | [] => st
  | _ :: _ =>
      match is_html part, main_html st with
      | true, None => store_main_html st part
      | _, _ => store_resource st part
      end
  end.
Proof.
  unfold _process_part, store_main_html, store_resource, is_html,
    data_uri_of, decoded_of, logged_of, location_of, cid_of,
    content_type_of, encoding_of, headers_of, body_of.
  fold (part_text part).
  destruct (part_text part) as [|c t] eqn:Et; [reflexivity|].
  destruct (partition (c :: t) [LF; LF]) as [[h x] b]. cbn [fst snd].
  destruct (_decode_body _ _) as [decoded logged]. cbn [fst snd].
  destruct (Re.search re_location _), (Re.search re_cid _);
    cbn [option_map]; reflexivity.
Qed.

Lemma main_html_store_resource st part :
  main_html (store_resource st part) = main_html st.
Proof.
  unfold store_resource.
  destruct (location_of part), (cid_of part); reflexivity.
Qed.

Lemma empty_part_not_html part : part_text part = [] -> is_html part = false.
Proof.
  intros H. unfold is_html, content_type_of, headers_of. rewrite H.
  reflexivity.
Qed.

Lemma part_text_eq part : part_text part = strip part.
Proof. apply lstrip_crlf_strip. Qed.

(** Once set, [main_html] is never assigned again. *)
Lemma main_html_kept st part h :
  main_html st = Some h -> main_html (_process_part st part) = Some h.
Proof.
  intros H. rewrite _process_part_eq.
  destruct (part_text part); trivial. rewrite H.
  destruct (is_html part); now rewrite main_html_store_resource.
Qed.

Lemma main_html_run_kept parts st h :
  main_html st = Some h -> main_html (run parts st) = Some h.
Proof.
  revert st. induction parts as [|q parts IH]; intros st H; trivial.
  apply IH. now apply main_html_kept.
Qed.

Lemma main_html_not_html st part :
  is_html part = false ->
  main_html (_process_part st part) = main_html st.
Proof.
  intros H. rewrite _process_part_eq, H.
  destruct (part_text part); trivial. apply main_html_store_resource.
Qed.

Lemma main_html_run_none parts st :
  Forall (fun q => is_html q = false) parts ->
  main_html (run parts st) = main_html st.
Proof.
  intros H. revert st. induction H as [|q parts Hq _ IH]; intros st; trivial.
  unfold run in *. simpl. rewrite IH. now apply main_html_not_html.
Qed.

Lemma process_first_html st part :
  is_html part = true -> main_html st = None ->
  _process_part st part = store_main_html st part.
Proof.
  intros H N. rewrite _process_part_eq, H, N.
  destruct (part_text part) eqn:E; trivial.
  apply empty_part_not_html in E. congruence.
Qed.

Lemma process_resource st part :
  part_text part <> [] ->
  is_html part = false \/ main_html st <> None ->
  _process_part st part = store_resource st part.
Proof.
  intros Hne H. rewrite _process_part_eq.
  destruct (part_text part); [congruence|].
  destruct (is_html part); trivial.
  destruct (main_html st); trivial. destruct H; congruence.
Qed.

Lemma run_app l1 l2 st : run (l1 ++ l2) st = run l2 (run l1 st).
Proof. apply fold_left_app. Qed.

End ProcessPart.

(** ** C1: the first text/html part wins *)

(** C1.  Starting from a state with no primary HTML, if [p] is the first
    part of the document whose content type starts with text/html, then at
    the end of the run [main_html] is the text of [p] (its decoded bytes
    read as UTF-8, or as Latin-1 when that fails); processing [p] adds
    nothing to [url_to_data_uri]; every later non-empty part, text/html or
    not, goes through the data-URI path; and at every point of the run
    [main_html] is either still unset or already has its final value. *)
Theorem first_html_part_wins :
  forall (st0 : state) (pre post : list str) (p : str),
    main_html st0 = None ->
    Forall (fun q => is_html q = false) pre ->
    is_html p = true ->
    let parts := pre ++ p :: post in
    main_html (run parts st0) = Some (decode_text (decoded_of p))
    /\ url_to_data_uri (run (pre ++ [p]) st0) = url_to_data_uri (run pre st0)
    /\ (forall post1 q post2,
          post = post1 ++ q :: post2 -> part_text q <> [] ->
          let st := run (pre ++ p :: post1) st0 in
          _process_part st q = store_resource st q)
    /\ (forall done todo,
          parts = done ++ todo ->
          main_html (run done st0) = None
          \/ main_html (run done st0) = main_html (run parts st0)).
Proof.
  intros st0 pre post p H0 Hpre Hp parts.
  assert (Hnone : main_html (run pre st0) = None)
    by now rewrite main_html_run_none.
  assert (Hset : forall l,
             main_html (run (pre ++ p :: l) st0)
             = Some (decode_text (decoded_of p))).
  { intros l. rewrite run_app. unfold run at 1. cbn [fold_left].
    apply main_html_run_kept. now rewrite process_first_html. }
  repeat split.
  - apply Hset.
  - rewrite run_app. unfold run at 1. cbn [fold_left].
    now rewrite process_first_html.
  - intros post1 q post2 _ Hq st. apply process_resource; trivial.
    right. unfold st. rewrite Hset. discriminate.
  - intros done todo E.
    destruct (main_html (run done st0)) as [h|] eqn:M; [right | now left].
    rewrite E, run_app. symmetry. now apply main_html_run_kept.
Qed.

Lemma first_html_part_wins_witness :
  main_html (run [sample_image; sample_html; sample_html2] init)
  = Some (lit "<img src=cid:logo>").
Proof.
  apply (first_html_part_wins init [sample_image] [sample_html2] sample_html).
  - reflexivity.
  - constructor; [vm_compute; reflexivity | constructor].
  - vm_compute; reflexivity.
Defined.

(** The second text/html part is filed as a resource. *)
Example second_html_is_a_resource :
  run [sample_html; sample_html2] init
  = {| boundary := None;
       url_to_data_uri :=
         [(lit "frame.html", lit "data:text/html;base64,PHA+c2Vjb25kPC9wPg==")];
       main_html := Some (lit "<img src=cid:logo>");
       log := [] |}.
Proof. vm_compute. reflexivity. Qed.

(** ** C2: transfer decoding *)

(** C2.  With the token of the Content-Transfer-Encoding header trimmed and
    lowered as at line 65: for base64 the result is the base64 decoding of
    the body, for quoted-printable its quoted-printable decoding, and for
    every other token the UTF-8 encoding of the body, with nothing logged;
    when the decoder raises, the result is the UTF-8 encoding of the
    undecoded body and one warning is logged.  A token that spells one of
    the two names in any letter case, with any whitespace around it, is
    trimmed and lowered to that name.  An exception of [convert] can only
    come from [_extract_parts]. *)
Theorem decode_body_policy :
  forall (token body : str),
    let encoding := lower (strip token) in
    (encoding = lit "base64" ->
     forall b, b64decode body = Some b -> _decode_body encoding body = (b, []))
    /\ (encoding = lit "quoted-printable" ->
        forall b, quopri_decodestring body = Some b ->
                  _decode_body encoding body = (b, []))
    /\ (encoding <> lit "base64" -> encoding <> lit "quoted-printable" ->
        _decode_body encoding body = (encode_utf8 body, []))
    /\ (encoding = lit "base64" -> b64decode body = None ->
        _decode_body encoding body
        = (encode_utf8 body, [WARNING_decoding_error]))
    /\ (encoding = lit "quoted-printable" ->
        quopri_decodestring body = None ->
        _decode_body encoding body
        = (encode_utf8 body, [WARNING_decoding_error]))
    /\ (forall ws1 t ws2,
          forallb isspace ws1 = true -> forallb isspace ws2 = true ->
          lower t = lit "base64" \/ lower t = lit "quoted-printable" ->
          lower (strip (ws1 ++ t ++ ws2)) = lower t)
    /\ (forall content e,
          convert content = Raised e -> _extract_parts init content = Raise e).
Proof.
  intros token body encoding. unfold _decode_body.
  split; [|split; [|split; [|split; [|split; [|split]]]]].
  - intros -> b ->. reflexivity.
  - intros -> b ->. reflexivity.
  - intros H1 H2. apply str_eqb_neq in H1, H2. now rewrite H1, H2.
  - intros -> ->. reflexivity.
  - intros -> ->. reflexivity.
  - intros ws1 t ws2 H1 H2 Ht. apply lower_strip_padded; trivial.
    intros c Hin.
    destruct Ht as [Ht|Ht]; rewrite Ht in Hin; cbv in Hin;
      repeat (destruct Hin as [<-|Hin]; [reflexivity|]); contradiction.
  - intros content e. unfold convert.
    destruct (_extract_parts init content) as [[st parts]|e'].
    + destruct (main_html _); discriminate.
    + congruence.
Qed.

Lemma decode_body_policy_witness :
  _decode_body (lower (strip (lit " BASE64 "))) (lit "aGk=")
  = (of_Ns [104; 105]%N, [])
  /\ _decode_body (lower (strip (lit "Quoted-Printable"))) (lit "a=3Db")
     = (of_Ns [97; 61; 98]%N, [])
  /\ _decode_body (lower (strip (lit "8bit"))) (lit "hi")
     = (of_Ns [104; 105]%N, [])
  /\ _decode_body (lower (strip (lit "base64"))) (lit "a")
     = (of_Ns [97]%N, [WARNING_decoding_error]).
Proof.
  split; [|split; [|split]].
  - destruct (decode_body_policy (lit " BASE64 ") (lit "aGk="))
      as (H & _).
    apply H; reflexivity.
  - destruct (decode_body_policy (lit "Quoted-Printable") (lit "a=3Db"))
      as (_ & H & _).
    apply H; reflexivity.
  - destruct (decode_body_policy (lit "8bit") (lit "hi"))
      as (_ & _ & H & _).
    apply H; discriminate.
  - destruct (decode_body_policy (lit "base64") (lit "a"))
      as (_ & _ & _ & H & _).
    apply H; reflexivity.
Defined.

(** A body that is not valid base64 is kept as it is, with a warning. *)
Example decode_fallback :
  let part := lit "Content-Transfer-Encoding: base64" ++ [LF]
              ++ lit "Content-Location: x" ++ [LF; LF] ++ lit "abcde" in
  _process_part init part
  = {| boundary := None;
       url_to_data_uri :=
         [(lit "x", lit "data:application/octet-stream;base64,YWJjZGU=")];
       main_html := None;
       log := [WARNING_decoding_error] |}.
Proof. vm_compute. reflexivity. Qed.

(** ** C3: the link rewriter *)

Section ReplaceLinks.
Import Dict.





End ReplaceLinks.


Example replace_links_sample :
  _replace_links sample_page sample_dict
  = lit "<img src=data:image/png;base64,BBBB><img src=data:image/png;base64,AAAA>".
Proof. vm_compute. reflexivity. Qed.

(** ** C4: structural errors *)

Section Boundary.
Import Re.

Lemma outside_quote v : Forall (outside [quote]) v <-> ~ In quote v.
Proof.
  rewrite Forall_forall. unfold outside. simpl. split.
  - intros H Hin. specialize (H _ Hin). discriminate.
  - intros H c Hc. rewrite orb_false_r. apply N.eqb_neq.
    intros ->. contradiction.
Qed.

Lemma match_here_boundary t v :
  match_here re_boundary t = Some v <->
  exists post,
    t = (lit "boundary=" ++ [quote]) ++ v ++ [quote] ++ post
    /\ v <> [] /\ ~ In quote v.
Proof.
  unfold match_here, re_boundary.
  cbn [literal ignorecase excluded closing]. split.
  - destruct (match_literal false _ t) as [r|] eqn:L; [|discriminate].
    apply match_literal_exact in L.
    destruct (span_excluding _ r) as [g r'] eqn:S.
    apply span_excluding_spec in S as (-> & Hg & _).
    destruct g as [|c g]; cbn beta iota; [discriminate|].
    destruct r' as [|c' r']; cbn beta iota; [discriminate|].
    destruct (N.eqb_spec c' quote) as [->|]; [|discriminate].
    intros [= <-]. exists r'. repeat split; trivial; try discriminate.
    now apply outside_quote.
  - intros (post & -> & Hne & Hq).
    assert (L : match_literal false (lit "boundary=" ++ [quote])
                  ((lit "boundary=" ++ [quote]) ++ v ++ [quote] ++ post)
                = Some (v ++ [quote] ++ post))
      by now apply match_literal_exact.
    rewrite L, span_excluding_app.
    + destruct v; [congruence|]. cbn [app]. now rewrite N.eqb_refl.
    + now apply outside_quote.
    + right. exists quote, post. split; reflexivity.
Qed.

Lemma parse_boundary_spec h :
  (exists b, _parse_boundary h = Some b) <-> has_boundary_param h.
Proof.
  unfold _parse_boundary, has_boundary_param. split.
  - intros (b & H). apply search_Some in H as (pre & t & -> & H).
    apply match_here_boundary in H as (post & -> & Hne & Hq).
    now exists pre, b, post.
  - intros (pre & v & post & -> & Hne & Hq).
    destruct (search re_boundary _) as [b|] eqn:S; [now exists b|].
    exfalso.
    pose proof (search_None _ _ S pre _ eq_refl) as N.
    assert (M : match_here re_boundary
                  ((lit "boundary=" ++ [quote]) ++ v ++ [quote] ++ post)
                = Some v)
      by (apply match_here_boundary; now exists post).
    congruence.
Qed.

Lemma parse_boundary_nonempty h b : _parse_boundary h = Some b -> b <> [].
Proof. apply search_nonempty. Qed.

End Boundary.

(** C4.  [convert] raises exactly in two cases: the text has no blank line
    (first error), or the header block before its first blank line has no
    boundary="..." parameter with a non-empty value (second error).  In the
    remaining case [_extract_parts] returns the parts and [convert] raises
    nothing. *)
Theorem structural_errors :
  forall content : str,
    (header_block content = None <-> ~ occurs [LF; LF] content)
    /\ (header_block content = None ->
        convert content = Raised (ValueError "Invalid MHTML structure"))
    /\ (forall hb, header_block content = Some hb ->
          ~ has_boundary_param hb ->
          convert content
          = Raised (ValueError "No boundary found in MHTML headers"))
    /\ (forall hb, header_block content = Some hb ->
          has_boundary_param hb ->
          (exists b parts,
              _parse_boundary hb = Some b
              /\ _extract_parts init content
                 = Ok (with_boundary init (Some b), parts))
          /\ forall e, convert content <> Raised e).
Proof.
  intros content. unfold header_block, convert, _extract_parts.
  destruct (find content [LF; LF]) as [i|] eqn:F; cbn [option_map].
  - split; [|split; [|split]].
    + split; [discriminate|]. intros H. exfalso. eauto using find_occurs.
    + discriminate.
    + intros hb [= <-] Hno. cbn [boundary with_boundary].
      destruct (_parse_boundary (firstn i content)) as [b|] eqn:B.
      * exfalso. apply Hno, parse_boundary_spec. eauto.
      * reflexivity.
    + intros hb [= <-] Hyes. apply parse_boundary_spec in Hyes as (b & B).
      cbn [boundary with_boundary]. rewrite B.
      pose proof (parse_boundary_nonempty _ _ B) as Hb.
      destruct b as [|c b]; [congruence|]. split.
      * eauto.
      * intros e. destruct (main_html _); discriminate.
  - split; [|split; [|split]].
    + split; trivial. intros _. now apply find_None.
    + reflexivity.
    + discriminate.
    + discriminate.
Qed.

(** The parameter name is matched in this letter case only, and the value
    must be quoted. *)
Example boundary_is_case_sensitive :
  convert (lit "Content-Type: multipart/related; Boundary=" ++ [quote]
           ++ lit "XYZ" ++ [quote] ++ [LF; LF] ++ lit "--XYZ--")
  = Raised (ValueError "No boundary found in MHTML headers")
  /\ convert (lit "Content-Type: multipart/related; boundary=XYZ"
              ++ [LF; LF] ++ lit "--XYZ--")
     = Raised (ValueError "No boundary found in MHTML headers")
  /\ convert (lit "Content-Type: multipart/related; boundary=" ++ [quote]
              ++ lit "XYZ" ++ [quote] ++ [LF] ++ lit "--XYZ--")
     = Raised (ValueError "Invalid MHTML structure").
Proof. repeat split; vm_compute; reflexivity. Qed.

(** ** C5: the part splitter *)

Section Splitter.

Lemma slice_1_m1_spec (l : list str) :
  l <> [] ->
  (exists x, l = [x] /\ slice_1_m1 l = [])
  \/ (exists x y, l = x :: slice_1_m1 l ++ [y]).
Proof.
  destruct l as [|x t]; [congruence|]. intros _. unfold slice_1_m1.
  cbn [tl]. destruct t as [|y t].
  - left. now exists x.
  - right. exists x, (last (y :: t) []). f_equal.
    apply app_removelast_last. discriminate.
Qed.

Lemma blank_part_skipped st seg :
  forallb isspace seg = true -> _process_part st seg = st.
Proof.
  intros H. rewrite _process_part_eq, part_text_eq.
  now rewrite strip_all_space.
Qed.

Lemma marker_nonempty b : lit "--" ++ b <> [].
Proof. discriminate. Qed.

End Splitter.

(** C5.  With [b] the boundary found in the header block, the document is
    cut at the occurrences of the marker --b: the segments joined by the
    marker give the document back and no segment contains the marker.
    [_extract_parts] returns the segments without the first and the last
    one, in order.  A segment made of whitespace only leaves the state
    unchanged. *)
Theorem part_splitter :
  forall (st : state) (content hb b : str),
    header_block content = Some hb ->
    _parse_boundary hb = Some b ->
    let marker := lit "--" ++ b in
    let segments := split content marker in
    join marker segments = content
    /\ Forall (fun seg => ~ occurs marker seg) segments
    /\ (exists parts,
          _extract_parts st content = Ok (with_boundary st (Some b), parts)
          /\ ((exists preamble, segments = [preamble] /\ parts = [])
              \/ (exists preamble epilogue,
                    segments = preamble :: parts ++ [epilogue])))
    /\ (forall st' seg,
          forallb isspace seg = true -> _process_part st' seg = st').
Proof.
  intros st content hb b Hhb Hb marker segments.
  pose proof (marker_nonempty b) as Hm.
  split; [|split; [|split]].
  - now apply join_split.
  - eapply Forall_impl; [|now apply split_segments_free].
    intros seg. apply find_None.
  - exists (slice_1_m1 segments). split.
    + unfold _extract_parts. unfold header_block in Hhb.
      destruct (find content [LF; LF]) as [i|]; [|discriminate].
      injection Hhb as <-. cbn [boundary with_boundary]. rewrite Hb.
      pose proof (parse_boundary_nonempty _ _ Hb).
      destruct b; [congruence | reflexivity].
    + destruct (slice_1_m1_spec segments) as [(x & E & ->)|(x & y & E)].
      * now apply split_nonempty.
      * left. now exists x.
      * right. now exists x, y.
  - apply blank_part_skipped.
Qed.

Lemma part_splitter_witness :
  let marker := lit "--XYZ" in
  let segments := split sample_document marker in
  join marker segments = sample_document
  /\ Forall (fun seg => ~ occurs marker seg) segments
  /\ (exists parts,
         _extract_parts init sample_document
         = Ok (with_boundary init (Some (lit "XYZ")), parts)
         /\ ((exists preamble, segments = [preamble] /\ parts = [])
             \/ (exists preamble epilogue,
                    segments = preamble :: parts ++ [epilogue])))
  /\ (forall st' seg,
         forallb isspace seg = true -> _process_part st' seg = st').
Proof.
  apply (part_splitter init sample_document
           (lit "MIME-Version: 1.0" ++ [LF]
            ++ lit "Content-Type: multipart/related; boundary=" ++ [quote]
            ++ lit "XYZ" ++ [quote])
           (lit "XYZ")).
  - vm_compute. reflexivity.
  - vm_compute. reflexivity.
Defined.

Example extract_parts_sample :
  _extract_parts init sample_document
  = Ok (with_boundary init (Some (lit "XYZ")),
        [sample_html; [LF]; sample_image]).
Proof. vm_compute. reflexivity. Qed.

Example convert_sample :
  convert sample_document
  = Written (lit "<img src=data:image/png;base64,iVBORw0KGgo=>") [INFO_saved].
Proof. vm_compute. reflexivity. Qed.

(** ** C6: data URIs and the resource map *)

(** What the data-URI path leaves in the state, in terms of the keys that
    [location_of] and [cid_of] give. *)
Lemma store_resource_entries :
  forall (st : state) (part : str),
    part_text part <> [] ->
    is_html part = false \/ main_html st <> None ->
    let uri := lit "data:" ++ content_type_of part ++ lit ";base64,"
               ++ b64encode (decoded_of part) in
    let st' := _process_part st part in
    (forall location,
        location_of part = Some location ->
        Dict.get (url_to_data_uri st') location = Some uri)
    /\ (forall id,
          cid_of part = Some id ->
          Dict.get (url_to_data_uri st') (lit "cid:" ++ id) = Some uri)
    /\ (forall k,
          location_of part <> Some k ->
          (forall id, cid_of part = Some id -> k <> lit "cid:" ++ id) ->
          Dict.get (url_to_data_uri st') k = Dict.get (url_to_data_uri st) k)
    /\ main_html st' = main_html st
    /\ (NoDup (Dict.keys (url_to_data_uri st)) ->
        NoDup (Dict.keys (url_to_data_uri st'))).
Proof.
  intros st part Hne Hres uri st'. unfold st'.
  rewrite (process_resource st part Hne Hres).
  unfold store_resource. fold uri.
  change (data_uri_of part) with uri.
  destruct (location_of part) as [loc|], (cid_of part) as [id|];
    cbn [url_to_data_uri set_item logging main_html];
    (split; [|split; [|split; [|split]]]); trivial;
    try discriminate.
  - intros ? [= <-].
    destruct (list_eq_dec N.eq_dec loc (lit "cid:" ++ id)) as [->|Hd].
    + apply get_set_same.
    + rewrite get_set_other by trivial. apply get_set_same.
  - intros ? [= <-]. apply get_set_same.
  - intros k Hk Hid. rewrite !get_set_other; trivial.
    + congruence.
    + now apply Hid.
  - intros H. now do 2 apply NoDup_keys_set.
  - intros ? [= <-]. apply get_set_same.
  - intros k Hk _. rewrite get_set_other; trivial. congruence.
  - intros H. now apply NoDup_keys_set.
  - intros ? [= <-]. apply get_set_same.
  - intros k _ Hid. rewrite get_set_other; trivial. now apply Hid.
  - intros H. now apply NoDup_keys_set.
Qed.

(** A later part with the same Content-Location overwrites the entry. *)
Example last_write_wins :
  let again := lit "Content-Type: image/gif" ++ [LF]
               ++ lit "Content-Location: img/logo.png" ++ [LF; LF]
               ++ lit "GIF" in
  url_to_data_uri (run [sample_image; again] init)
  = [(lit "img/logo.png", lit "data:image/gif;base64,R0lG");
     (lit "cid:logo", lit "data:image/png;base64,iVBORw0KGgo=")].
Proof. vm_compute. reflexivity. Qed.

(** ** C7: line endings *)

Section LineEndings.

Lemma find_absent_head (s sub' : str) (c0 : char) :
  ~ In c0 s -> find s (c0 :: sub') = None.
Proof.
  intros H. apply find_None. intros (pre & post & ->).
  apply H, in_or_app. right. now left.
Qed.

Lemma find_after_clean (a sub' rest : str) (c0 : char) :
  ~ In c0 a ->
  find (a ++ (c0 :: sub') ++ rest) (c0 :: sub') = Some (length a).
Proof.
  induction a as [|x a IH]; intros H.
  - rewrite find_eq. cbn [app length].
    change (c0 :: sub' ++ rest) with ((c0 :: sub') ++ rest).
    now rewrite startswith_app.
  - rewrite find_eq. cbn [app startswith length].
    destruct (N.eqb_spec c0 x) as [->|Hne].
    + exfalso. apply H. now left.
    + cbn [andb]. change (a ++ c0 :: sub' ++ rest)
        with (a ++ (c0 :: sub') ++ rest).
      rewrite IH; [reflexivity|]. intros Hin. apply H. now right.
Qed.

Lemma replace_after_clean (a old' rest new : str) (c0 : char) :
  ~ In c0 a ->
  replace (a ++ (c0 :: old') ++ rest) (c0 :: old') new
  = a ++ new ++ replace rest (c0 :: old') new.
Proof.
  intros H. rewrite replace_eq by discriminate.
  rewrite find_after_clean by trivial.
  rewrite firstn_app, firstn_all, Nat.sub_diag, firstn_O, app_nil_r.
  rewrite skipn_app, skipn_all2 by lia.
  replace (length a + length (c0 :: old') - length a)
    with (length (c0 :: old')) by lia.
  rewrite skipn_app, skipn_all, Nat.sub_diag. reflexivity.
Qed.

(** Lines that hold no CR, joined by CRLF, become the same lines joined
    by LF. *)
Lemma normalize_lines (lines : list str) :
  Forall (fun l => ~ In CR l) lines ->
  replace (join [CR; LF] lines) [CR; LF] [LF] = join [LF] lines.
Proof.
  induction 1 as [|l lines Hl _ IH]; [reflexivity|].
  destruct lines as [|l' lines].
  - cbn [join]. apply replace_absent. now apply find_absent_head.
  - rewrite !join_cons by discriminate.
    rewrite replace_after_clean by trivial. now rewrite IH.
Qed.

Lemma partition_found s sep i :
  find s sep = Some i ->
  partition s sep = (firstn i s, sep, skipn (i + length sep) s).
Proof. unfold partition. now intros ->. Qed.

Lemma partition_not_found s sep :
  find s sep = None -> partition s sep = (s, [], []).
Proof. unfold partition. now intros ->. Qed.

Lemma process_part_ext st p q :
  part_text p = part_text q -> _process_part st p = _process_part st q.
Proof.
  intros H. rewrite !_process_part_eq.
  unfold store_main_html, store_resource, is_html, data_uri_of, decoded_of,
    logged_of, location_of, cid_of, content_type_of, encoding_of,
    headers_of, body_of.
  now rewrite H.
Qed.

End LineEndings.

(** [_process_part] applied on its own to a text that holds CR LF CR LF,
    which [convert] never passes to it (the file is read in text mode):
    line 54 splits before lines 56-57 replace, so the text is not split. *)
Lemma crlf_separator_not_split :
  ~ (headers_of part_crlf = headers_of part_lf
     /\ body_of part_crlf = body_of part_lf)
  /\ body_of part_lf = lit "BODY"
  /\ body_of part_crlf = []
  /\ headers_of part_crlf = lit "Content-Location: a" ++ [LF; LF] ++ lit "BODY"
  /\ url_to_data_uri (_process_part init part_lf)
     = [(lit "a", lit "data:application/octet-stream;base64,Qk9EWQ==")]
  /\ url_to_data_uri (_process_part init part_crlf)
     = [(lit "a", lit "data:application/octet-stream;base64,")].
Proof.
  split; [intros [_ H]; vm_compute in H; discriminate|].
  repeat split; vm_compute; reflexivity.
Qed.

(** Lines 54-57 in the order they are written: the stripped text is split
    at its first LF LF, then CR LF is replaced by LF in the header block
    and in the body, and only these two texts are used afterwards. *)
Lemma line_endings_after_split :
  forall part : str,
    let text := part_text part in
    (forall i, find text [LF; LF] = Some i ->
       headers_of part = replace (firstn i text) [CR; LF] [LF]
       /\ body_of part = replace (skipn (i + 2) text) [CR; LF] [LF])
    /\ (~ occurs [LF; LF] text ->
        headers_of part = replace text [CR; LF] [LF] /\ body_of part = [])
    /\ (forall lines,
          Forall (fun l => ~ In CR l) lines ->
          replace (join [CR; LF] lines) [CR; LF] [LF] = join [LF] lines)
    /\ (forall st other,
          (part_text other = [] <-> text = []) ->
          headers_of other = headers_of part ->
          body_of other = body_of part ->
          _process_part st other = _process_part st part).
Proof.
  intros part text. split; [|split; [|split]].
  - intros i F. unfold headers_of, body_of. fold text.
    now rewrite (partition_found _ _ _ F).
  - intros H. apply find_None in H. unfold headers_of, body_of. fold text.
    now rewrite (partition_not_found _ _ H).
  - apply normalize_lines.
  - intros st other He Hh Hb. rewrite !_process_part_eq.
    unfold store_main_html, store_resource, is_html, data_uri_of,
      decoded_of, logged_of, location_of, cid_of, content_type_of,
      encoding_of.
    rewrite Hh, Hb. fold text.
    destruct (part_text other) as [|c t], text as [|c' t']; trivial.
    + destruct He as [He _]. now specialize (He eq_refl).
    + destruct He as [_ He]. now specialize (He eq_refl).
Qed.

(** ** C8: a part without a blank line *)

(** C8, as stated, fails: for a part without LF LF the header block is not
    empty and the body is not the whole text.  It is the other way round,
    and the Content-Location found in the text is registered with an empty
    payload. *)
Lemma no_blank_line_is_all_headers :
  find (part_text part_no_blank_line) [LF; LF] = None
  /\ ~ (headers_of part_no_blank_line = []
        /\ body_of part_no_blank_line = part_text part_no_blank_line)
  /\ headers_of part_no_blank_line = part_no_blank_line
  /\ body_of part_no_blank_line = []
  /\ url_to_data_uri (_process_part init part_no_blank_line)
     = [(lit "x", lit "data:application/octet-stream;base64,")].
Proof.
  split; [vm_compute; reflexivity|].
  split; [intros [H _]; vm_compute in H; discriminate|].
  repeat split; vm_compute; reflexivity.
Qed.

Section NoBlankLine.

Lemma decode_empty_body encoding : _decode_body encoding [] = ([], []).
Proof.
  unfold _decode_body.
  destruct (str_eqb encoding (lit "base64")); [reflexivity|].
  destruct (str_eqb encoding (lit "quoted-printable")); reflexivity.
Qed.

End NoBlankLine.

(** C8, amended.  A part whose stripped text has no LF LF is treated as
    having that whole text as its header block and an empty body: the
    header lookups run over the whole text, the decoded content is empty
    and nothing is logged, so a data URI made for it has an empty
    payload. *)
Theorem no_blank_line_part :
  forall part : str,
    ~ occurs [LF; LF] (part_text part) ->
    headers_of part = replace (part_text part) [CR; LF] [LF]
    /\ body_of part = []
    /\ decoded_of part = []
    /\ logged_of part = []
    /\ data_uri_of part = lit "data:" ++ content_type_of part ++ lit ";base64,".
Proof.
  intros part H. apply find_None in H.
  assert (Hb : body_of part = []).
  { unfold body_of. now rewrite (partition_not_found _ _ H). }
  split; [|split; [|split; [|split]]]; trivial.
  - unfold headers_of. now rewrite (partition_not_found _ _ H).
  - unfold decoded_of. now rewrite Hb, decode_empty_body.
  - unfold logged_of. now rewrite Hb, decode_empty_body.
  - unfold data_uri_of, decoded_of.
    now rewrite Hb, decode_empty_body.
Qed.

Lemma no_blank_line_part_witness :
  headers_of part_no_blank_line
  = replace (part_text part_no_blank_line) [CR; LF] [LF]
  /\ body_of part_no_blank_line = []
  /\ decoded_of part_no_blank_line = []
  /\ logged_of part_no_blank_line = []
  /\ data_uri_of part_no_blank_line
     = lit "data:" ++ content_type_of part_no_blank_line ++ lit ";base64,".
Proof.
  apply (no_blank_line_part part_no_blank_line).
  apply find_None. vm_compute. reflexivity.
Defined.

(** ** C9: a page without references *)

Section NoReferences.

Lemma replace_links_absent html d :
  (forall k, In k (Dict.keys d) -> ~ occurs k html) ->
  _replace_links html d = html.
Proof.
  intros H. unfold _replace_links.
  assert (Hin : forall k,
             In k (Dict.sorted_by_len_desc (Dict.keys d)) ->
             ~ occurs k html).
  { intros k Hk. apply H.
    now apply (Permutation_in _ (sorted_by_len_desc_perm _)). }
  clear H. induction (Dict.sorted_by_len_desc (Dict.keys d)) as [|k l IH].
  - reflexivity.
  - cbn [fold_left].
    assert (E : match Dict.get d k with
                | Some data_uri => replace html k data_uri
                | None => html
                end = html).
    { destruct (Dict.get d k); trivial.
      apply replace_absent, find_None, Hin. now left. }
    rewrite E. apply IH. intros k' Hk'. apply Hin. now right.
Qed.

Lemma extract_parts_state st content st' parts :
  _extract_parts st content = Ok (st', parts) ->
  main_html st' = main_html st
  /\ url_to_data_uri st' = url_to_data_uri st
  /\ log st' = log st.
Proof.
  unfold _extract_parts.
  destruct (find content [LF; LF]); [|discriminate].
  cbn [boundary with_boundary].
  destruct (_parse_boundary _) as [[|c b]|]; try discriminate.
  intros [= <- _]. auto.
Qed.

End NoReferences.

(** C9.  For a document that [_extract_parts] accepts, whose first
    text/html part is [p] (in particular when [p] is the only one), and
    such that no key of the resource map built by the run occurs in the
    text of [p], the HTML written is the text of [p] unchanged. *)
Theorem unreferenced_page_unchanged :
  forall (content : str) (st : state) (parts pre post : list str) (p : str),
    _extract_parts init content = Ok (st, parts) ->
    parts = pre ++ p :: post ->
    Forall (fun q => is_html q = false) pre ->
    is_html p = true ->
    (forall k, In k (Dict.keys (url_to_data_uri (run parts st))) ->
               ~ occurs k (decode_text (decoded_of p))) ->
    exists logged,
      convert content = Written (decode_text (decoded_of p)) logged.
Proof.
  intros content st parts pre post p Hx -> Hpre Hp Hkeys.
  destruct (extract_parts_state _ _ _ _ Hx) as (Hm & _).
  assert (M : main_html (run (pre ++ p :: post) st)
              = Some (decode_text (decoded_of p))).
  { rewrite run_app. unfold run at 1. cbn [fold_left].
    apply main_html_run_kept. rewrite process_first_html; trivial.
    now rewrite main_html_run_none. }
  unfold convert. rewrite Hx. fold (run (pre ++ p :: post) st).
  rewrite M. rewrite replace_links_absent by exact Hkeys. eauto.
Qed.

Lemma unreferenced_page_unchanged_witness :
  exists logged,
    convert sample_plain_document = Written (lit "<p>hello</p>") logged.
Proof.
  apply (unreferenced_page_unchanged sample_plain_document
           (with_boundary init (Some (lit "XYZ")))
           [ [LF] ++ lit "Content-Type: text/html" ++ [LF; LF]
             ++ lit "<p>hello</p>" ++ [LF]; sample_image ]
           [] [sample_image]
           ([LF] ++ lit "Content-Type: text/html" ++ [LF; LF]
            ++ lit "<p>hello</p>" ++ [LF])).
  - vm_compute. reflexivity.
  - reflexivity.
  - constructor.
  - vm_compute. reflexivity.
  - intros k Hin. vm_compute in Hin.
    destruct Hin as [<-|[<-|[]]]; apply find_None; vm_compute; reflexivity.
Defined.

(** ** C10: parts are stripped first *)

(** C10.  Whitespace before and after a raw part has no effect: the text
    that is split is the same and so is the resulting state.  That text
    neither starts nor ends with a whitespace character, and neither does
    the end of the body cut from it. *)
Theorem part_is_stripped :
  forall (st : state) (ws1 part ws2 : str),
    forallb isspace ws1 = true ->
    forallb isspace ws2 = true ->
    part_text (ws1 ++ part ++ ws2) = part_text part
    /\ _process_part st (ws1 ++ part ++ ws2) = _process_part st part
    /\ (forall c r, part_text part = c :: r -> isspace c = false)
    /\ (forall r c, part_text part = r ++ [c] -> isspace c = false)
    /\ (forall r c,
          snd (partition (part_text part) [LF; LF]) = r ++ [c] ->
          isspace c = false).
Proof.
  intros st ws1 part ws2 H1 H2.
  assert (E : part_text (ws1 ++ part ++ ws2) = part_text part).
  { rewrite !part_text_eq. now apply strip_pad. }
  split; [|split; [|split; [|split]]]; trivial.
  - now apply process_part_ext.
  - intros c r H. rewrite part_text_eq in H. eauto using strip_head.
  - intros r c H. rewrite part_text_eq in H. eauto using strip_last.
  - intros r c. unfold partition.
    destruct (find (part_text part) [LF; LF]) as [i|] eqn:F; cbn [snd].
    + intros H. pose proof (firstn_skipn (i + 2) (part_text part)) as S.
      cbn [length] in H. rewrite H, app_assoc, part_text_eq in S.
      eauto using strip_last.
    + destruct r; discriminate.
Qed.

Lemma part_is_stripped_witness :
  _process_part init ([LF; 32%N] ++ sample_html ++ [CR; LF; 160%N])
  = _process_part init sample_html.
Proof.
  apply (part_is_stripped init [LF; 32%N] sample_html [CR; LF; 160%N]);
    reflexivity.
Defined.

(** * Further properties of the converter *)

Section RunFacts.

Lemma log_process_part st part :
  log (_process_part st part) = log st ++ part_log part.
Proof.
  rewrite _process_part_eq. unfold part_log.
  destruct (part_text part); [now rewrite app_nil_r|].
  unfold store_main_html, store_resource.
  destruct (is_html part), (main_html st), (location_of part),
    (cid_of part); reflexivity.
Qed.

Lemma log_run parts st :
  log (run parts st) = log st ++ flat_map part_log parts.
Proof.
  revert st. induction parts as [|p parts IH]; intros st.
  - simpl. now rewrite app_nil_r.
  - unfold run in *. cbn [fold_left flat_map].
    now rewrite IH, log_process_part, app_assoc.
Qed.

Lemma boundary_process_part st part :
  boundary (_process_part st part) = boundary st.
Proof.
  rewrite _process_part_eq.
  destruct (part_text part); trivial.
  unfold store_main_html, store_resource.
  destruct (is_html part), (main_html st), (location_of part),
    (cid_of part); reflexivity.
Qed.

Lemma keys_set_extends d k v :
  exists new, Dict.keys (Dict.set d k v) = Dict.keys d ++ new.
Proof.
  rewrite keys_set.
  destruct (in_dec (list_eq_dec N.eq_dec) k (Dict.keys d)).
  - exists []. now rewrite app_nil_r.
  - now exists [k].
Qed.

Lemma keys_process_part st part :
  exists new,
    Dict.keys (url_to_data_uri (_process_part st part))
    = Dict.keys (url_to_data_uri st) ++ new.
Proof.
  rewrite _process_part_eq.
  assert (R : exists new : list str,
             Dict.keys (url_to_data_uri st)
             = Dict.keys (url_to_data_uri st) ++ new)
    by (exists []; now rewrite app_nil_r).
  destruct (part_text part); trivial.
  assert (S : exists new,
             Dict.keys (url_to_data_uri (store_resource st part))
             = Dict.keys (url_to_data_uri st) ++ new).
  { unfold store_resource.
    destruct (location_of part) as [loc|], (cid_of part) as [id|];
      cbn [url_to_data_uri set_item logging]; trivial.
    - destruct (keys_set_extends (url_to_data_uri st) loc (data_uri_of part))
        as (n1 & E1).
      destruct (keys_set_extends
                  (Dict.set (url_to_data_uri st) loc (data_uri_of part))
                  (lit "cid:" ++ id) (data_uri_of part)) as (n2 & E2).
      exists (n1 ++ n2). now rewrite E2, E1, app_assoc.
    - apply keys_set_extends.
    - apply keys_set_extends. }
  destruct (is_html part), (main_html st); trivial.
Qed.

Lemma in_set d k v k' v' :
  In (k, v) (Dict.set d k' v') -> (k, v) = (k', v') \/ In (k, v) d.
Proof.
  induction d as [|[k0 v0] d IH]; simpl.
  - intros [H|[]]. left. congruence.
  - destruct (str_eqb k0 k') eqn:E.
    + apply str_eqb_eq in E. subst.
      intros [H|H]; [left; congruence | right; now right].
    + intros [H|H]; [right; now left|].
      destruct (IH H); [now left | right; now right].
Qed.

Lemma entries_process_part st part k v :
  In (k, v) (url_to_data_uri (_process_part st part)) ->
  In (k, v) (url_to_data_uri st)
  \/ (part_text part <> [] /\ v = data_uri_of part /\ registers part k).
Proof.
  rewrite _process_part_eq.
  destruct (part_text part) as [|c t] eqn:Et; [now left|].
  assert (Hne : c :: t <> []) by discriminate.
  assert (S : In (k, v) (url_to_data_uri (store_resource st part)) ->
              In (k, v) (url_to_data_uri st)
              \/ (c :: t <> [] /\ v = data_uri_of part /\ registers part k)).
  { unfold store_resource, registers.
    destruct (location_of part) as [loc|], (cid_of part) as [id|];
      cbn [url_to_data_uri set_item logging]; intros H.
    - apply in_set in H as [H|H].
      + injection H as -> ->. right. repeat split; trivial. right. eauto.
      + apply in_set in H as [H|H]; [|now left].
        injection H as -> ->. right. repeat split; trivial. now left.
    - apply in_set in H as [H|H]; [|now left].
      injection H as -> ->. right. repeat split; trivial. now left.
    - apply in_set in H as [H|H]; [|now left].
      injection H as -> ->. right. repeat split; trivial. right. eauto.
    - now left. }
  destruct (is_html part), (main_html st); trivial. now left.
Qed.

Lemma first_html_split (parts : list str) :
  Exists (fun q => is_html q = true) parts ->
  exists pre p post,
    parts = pre ++ p :: post
    /\ Forall (fun q => is_html q = false) pre /\ is_html p = true.
Proof.
  induction parts as [|q parts IH]; intros H; [inversion H|].
  destruct (is_html q) eqn:Hq.
  - now exists [], q, parts.
  - inversion H as [? ? Hq'|? ? Hrest]; subst; [congruence|].
    destruct (IH Hrest) as (pre & p & post & -> & Hpre & Hp).
    exists (q :: pre), p, post. repeat split; trivial. now constructor.
Qed.

Lemma logged_of_cases part :
  logged_of part = [] \/ logged_of part = [WARNING_decoding_error].
Proof.
  unfold logged_of, _decode_body.
  destruct (str_eqb _ (lit "base64")).
  - destruct (b64decode _); auto.
  - destruct (str_eqb _ (lit "quoted-printable")); auto.
    destruct (quopri_decodestring _); auto.
Qed.

End RunFacts.

(** X1.  Once the parts are extracted, [convert] ends in one of two ways:
    when no part is text/html it writes nothing and logs the error after
    the warnings of the run; otherwise it writes the text of the first
    text/html part, rewritten with the map the whole run has built, and
    logs the success. *)
Theorem convert_outcomes :
  forall (content : str) (st : state) (parts : list str),
    _extract_parts init content = Ok (st, parts) ->
    (Forall (fun q => is_html q = false) parts ->
     convert content
     = NotWritten (flat_map part_log parts ++ [ERROR_main_html_not_found]))
    /\ (Exists (fun q => is_html q = true) parts ->
        exists pre p post,
          parts = pre ++ p :: post
          /\ Forall (fun q => is_html q = false) pre
          /\ is_html p = true
          /\ convert content
             = Written (_replace_links (decode_text (decoded_of p))
                                       (url_to_data_uri (run parts st)))
                       (flat_map part_log parts ++ [INFO_saved])).
Proof.
  intros content st parts Hx.
  destruct (extract_parts_state _ _ _ _ Hx) as (Hm & _ & Hl).
  assert (L : log (run parts st) = flat_map part_log parts)
    by now rewrite log_run, Hl.
  split.
  - intros Hall. unfold convert. rewrite Hx. fold (run parts st).
    now rewrite (main_html_run_none parts st Hall), Hm, L.
  - intros Hex.
    destruct (first_html_split parts Hex) as (pre & p & post & E & Hpre & Hp).
    exists pre, p, post. repeat split; trivial.
    unfold convert. rewrite Hx. fold (run parts st). rewrite L.
    assert (M : main_html (run parts st)
                = Some (decode_text (decoded_of p))).
    { rewrite E, run_app. unfold run at 1. cbn [fold_left].
      apply main_html_run_kept. rewrite process_first_html; trivial.
      now rewrite main_html_run_none. }
    now rewrite M.
Qed.

Lemma convert_outcomes_witness :
  convert sample_document
  = Written (_replace_links (decode_text (decoded_of sample_html))
               (url_to_data_uri
                  (run [sample_html; [LF]; sample_image]
                       (with_boundary init (Some (lit "XYZ"))))))
            [INFO_saved].
Proof.
  destruct (convert_outcomes sample_document
              (with_boundary init (Some (lit "XYZ")))
              [sample_html; [LF]; sample_image]) as (_ & H).
  - vm_compute. reflexivity.
  - destruct H as (pre & p & post & E & Hpre & Hp & Hc).
    + constructor. vm_compute. reflexivity.
    + destruct pre as [|q pre].
      * injection E as <- _. exact Hc.
      * exfalso. injection E as <- _.
        inversion Hpre as [|? ? Hq _]. vm_compute in Hq. discriminate.
Defined.

(** X2.  The log of a run is the log before it followed by what each
    non-empty part logs, in order; a part logs nothing or exactly one
    warning, and it logs the warning exactly when its transfer encoding is
    base64 or quoted-printable and the decoder raises on its body. *)
Theorem run_log_accounting :
  forall (parts : list str) (st : state),
    log (run parts st) = log st ++ flat_map part_log parts
    /\ (forall part,
          logged_of part = [] \/ logged_of part = [WARNING_decoding_error])
    /\ (forall part,
          logged_of part = [WARNING_decoding_error] <->
          (encoding_of part = lit "base64"
           /\ b64decode (body_of part) = None)
          \/ (encoding_of part = lit "quoted-printable"
              /\ quopri_decodestring (body_of part) = None)).
Proof.
  intros parts st. split; [apply log_run | split; [apply logged_of_cases|]].
  intros part. unfold logged_of, _decode_body.
  destruct (str_eqb (encoding_of part) (lit "base64")) eqn:E1.
  - apply str_eqb_eq in E1.
    destruct (b64decode (body_of part)) eqn:D; cbn [snd]; split.
    + discriminate.
    + intros [[_ H]|[H _]]; [discriminate|].
      rewrite E1 in H. discriminate.
    + auto.
    + reflexivity.
  - apply str_eqb_neq in E1.
    destruct (str_eqb (encoding_of part) (lit "quoted-printable")) eqn:E2.
    + apply str_eqb_eq in E2.
      destruct (quopri_decodestring (body_of part)) eqn:D; cbn [snd]; split.
      * discriminate.
      * intros [[H _]|[_ H]]; [contradiction | discriminate].
      * auto.
      * reflexivity.
    + apply str_eqb_neq in E2. cbn [snd]. split; [discriminate|].
      intros [[H _]|[H _]]; contradiction.
Qed.

(** X3.  Processing parts never changes [boundary] and never removes or
    reorders a key of the map: the keys after a run are the keys before it
    followed by the new ones. *)
Theorem run_keeps_keys :
  forall (parts : list str) (st : state),
    boundary (run parts st) = boundary st
    /\ exists new,
         Dict.keys (url_to_data_uri (run parts st))
         = Dict.keys (url_to_data_uri st) ++ new.
Proof.
  induction parts as [|p parts IH]; intros st.
  - split; trivial. exists []. now rewrite app_nil_r.
  - destruct (IH (_process_part st p)) as (Hb & new & Hk).
    unfold run in *. cbn [fold_left]. split.
    + now rewrite Hb, boundary_process_part.
    + destruct (keys_process_part st p) as (n1 & E1).
      exists (n1 ++ new). now rewrite Hk, E1, app_assoc.
Qed.

(** X4.  Every entry of the map after a run was either there before or was
    stored by one of the non-empty parts: its value is the data URI of that
    part and its key is the part's trimmed Content-Location or cid: plus
    its Content-ID. *)
Theorem map_entries_come_from_parts :
  forall (parts : list str) (st : state) (k v : str),
    In (k, v) (url_to_data_uri (run parts st)) ->
    In (k, v) (url_to_data_uri st)
    \/ exists part,
         In part parts /\ part_text part <> []
         /\ v = data_uri_of part /\ registers part k.
Proof.
  induction parts as [|p parts IH]; intros st k v H; [now left|].
  unfold run in *. cbn [fold_left] in H.
  destruct (IH _ _ _ H) as [H'|(q & Hq & R)].
  - apply entries_process_part in H' as [H'|R]; [now left|].
    right. exists p. split; [now left | exact R].
  - right. exists q. split; [now right | exact R].
Qed.

Lemma map_entries_come_from_parts_witness :
  In (lit "cid:logo", lit "data:image/png;base64,iVBORw0KGgo=")
     (url_to_data_uri init)
  \/ exists part,
       In part [sample_html; sample_image] /\ part_text part <> []
       /\ lit "data:image/png;base64,iVBORw0KGgo=" = data_uri_of part
       /\ registers part (lit "cid:logo").
Proof.
  apply (map_entries_come_from_parts [sample_html; sample_image] init).
  vm_compute. right. left. reflexivity.
Defined.

Section ExtractFacts.

Lemma extract_parts_ok st content hb b :
  header_block content = Some hb ->
  _parse_boundary hb = Some b ->
  _extract_parts st content
  = Ok (with_boundary st (Some b), slice_1_m1 (split content (lit "--" ++ b))).
Proof.
  unfold header_block, _extract_parts. intros Hhb Hb.
  destruct (find content [LF; LF]) as [i|]; [|discriminate].
  injection Hhb as <-. cbn [boundary with_boundary]. rewrite Hb.
  pose proof (parse_boundary_nonempty _ _ Hb).
  destruct b; [congruence | reflexivity].
Qed.

Lemma extract_parts_inv st content st' parts :
  _extract_parts st content = Ok (st', parts) ->
  exists hb b,
    header_block content = Some hb /\ _parse_boundary hb = Some b
    /\ st' = with_boundary st (Some b)
    /\ parts = slice_1_m1 (split content (lit "--" ++ b)).
Proof.
  unfold header_block, _extract_parts.
  destruct (find content [LF; LF]) as [i|]; [|discriminate].
  cbn [boundary with_boundary option_map].
  destruct (_parse_boundary (firstn i content)) as [[|c b]|] eqn:B;
    try discriminate.
  intros [= <- <-]. now exists (firstn i content), (c :: b).
Qed.

Lemma parse_boundary_value h b :
  _parse_boundary h = Some b ->
  b <> [] /\ ~ In quote b
  /\ occurs ((lit "boundary=" ++ [quote]) ++ b ++ [quote]) h.
Proof.
  unfold _parse_boundary. intros H.
  apply search_Some in H as (pre & t & -> & H).
  apply match_here_boundary in H as (post & -> & Hne & Hq).
  repeat split; trivial. exists pre, post.
  now rewrite <- !app_assoc.
Qed.

End ExtractFacts.

(** X5.  When [_extract_parts] returns, the boundary it stored is the
    non-empty, quote-free value of a boundary="..." parameter that occurs
    in the header block, the parts are the segments between the markers
    --boundary without the first and the last, and no other field of the
    state has changed. *)
Theorem extract_parts_result :
  forall (st : state) (content : str) (st' : state) (parts : list str),
    _extract_parts st content = Ok (st', parts) ->
    exists hb b,
      header_block content = Some hb
      /\ boundary st' = Some b
      /\ b <> [] /\ ~ In quote b
      /\ occurs ((lit "boundary=" ++ [quote]) ++ b ++ [quote]) hb
      /\ parts = slice_1_m1 (split content (lit "--" ++ b))
      /\ url_to_data_uri st' = url_to_data_uri st
      /\ main_html st' = main_html st
      /\ log st' = log st.
Proof.
  intros st content st' parts H.
  destruct (extract_parts_inv _ _ _ _ H) as (hb & b & Hhb & Hb & -> & ->).
  destruct (parse_boundary_value _ _ Hb) as (Hne & Hq & Ho).
  exists hb, b. repeat split; trivial.
Qed.

Lemma extract_parts_result_witness :
  exists hb b,
    header_block sample_document = Some hb
    /\ boundary (with_boundary init (Some (lit "XYZ"))) = Some b
    /\ b <> [] /\ ~ In quote b
    /\ occurs ((lit "boundary=" ++ [quote]) ++ b ++ [quote]) hb
    /\ [sample_html; [LF]; sample_image]
       = slice_1_m1 (split sample_document (lit "--" ++ b))
    /\ url_to_data_uri (with_boundary init (Some (lit "XYZ")))
       = url_to_data_uri init
    /\ main_html (with_boundary init (Some (lit "XYZ"))) = main_html init
    /\ log (with_boundary init (Some (lit "XYZ"))) = log init.
Proof.
  apply (extract_parts_result init sample_document).
  vm_compute. reflexivity.
Defined.

(** X6.  When the marker --boundary occurs at most once in the document
    (for instance when the closing marker is missing after a single part),
    [_extract_parts] returns no part at all, so nothing is written and the
    missing primary HTML is reported. *)
Theorem single_marker_yields_nothing :
  forall (content hb b : str),
    header_block content = Some hb ->
    _parse_boundary hb = Some b ->
    (forall i,
        find content (lit "--" ++ b) = Some i ->
        find (skipn (i + length (lit "--" ++ b)) content) (lit "--" ++ b)
        = None) ->
    _extract_parts init content = Ok (with_boundary init (Some b), [])
    /\ convert content = NotWritten [ERROR_main_html_not_found].
Proof.
  intros content hb b Hhb Hb Honce.
  assert (E : _extract_parts init content
              = Ok (with_boundary init (Some b), [])).
  { rewrite (extract_parts_ok init content hb b Hhb Hb). do 2 f_equal.
    rewrite split_eq by apply marker_nonempty.
    destruct (find content (lit "--" ++ b)) as [i|] eqn:F; [|reflexivity].
    rewrite split_eq by apply marker_nonempty.
    now rewrite (Honce i eq_refl). }
  split; trivial. unfold convert. now rewrite E.
Qed.

Lemma single_marker_yields_nothing_witness :
  convert (lit "Content-Type: multipart/related; boundary=" ++ [quote]
           ++ lit "XYZ" ++ [quote] ++ [LF; LF] ++ lit "--XYZ" ++ sample_html)
  = NotWritten [ERROR_main_html_not_found].
Proof.
  apply (single_marker_yields_nothing
           (lit "Content-Type: multipart/related; boundary=" ++ [quote]
            ++ lit "XYZ" ++ [quote] ++ [LF; LF] ++ lit "--XYZ" ++ sample_html)
           (lit "Content-Type: multipart/related; boundary=" ++ [quote]
            ++ lit "XYZ" ++ [quote])
           (lit "XYZ")).
  - vm_compute. reflexivity.
  - vm_compute. reflexivity.
  - intros i H. vm_compute in H. injection H as <-. vm_compute. reflexivity.
Defined.

Section SortFacts.
Import Dict.

Lemma filter_insert_by_len n k l :
  filter (fun x => length x =? n) (insert_by_len k l)
  = filter (fun x => length x =? n) (k :: l).
Proof.
  induction l as [|y l IH]; [reflexivity|]. cbn [insert_by_len].
  destruct (Nat.leb_spec (length y) (length k)) as [L|L]; [reflexivity|].
  cbn [filter] in *. rewrite IH.
  destruct (Nat.eqb_spec (length y) n), (Nat.eqb_spec (length k) n);
    trivial. lia.
Qed.

Lemma filter_sorted_by_len_desc n l :
  filter (fun x => length x =? n) (sorted_by_len_desc l)
  = filter (fun x => length x =? n) l.
Proof.
  induction l as [|k l IH]; [reflexivity|].
  cbn [sorted_by_len_desc fold_right].
  fold (sorted_by_len_desc l). rewrite filter_insert_by_len.
  cbn [filter]. now rewrite IH.
Qed.

End SortFacts.

(** X7.  The sort of [_replace_links] is stable: the keys of any one
    length are processed in the order in which they were inserted into the
    map.  So for two distinct keys of the same length the first inserted
    is substituted first. *)
Theorem equal_length_keys_in_insertion_order :
  forall (d : Dict.dict) (n : nat),
    filter (fun k => length k =? n) (Dict.sorted_by_len_desc (Dict.keys d))
    = filter (fun k => length k =? n) (Dict.keys d)
    /\ forall html k1 v1 k2 v2,
         k1 <> k2 -> length k1 = length k2 ->
         _replace_links html [(k1, v1); (k2, v2)]
         = replace (replace html k1 v1) k2 v2.
Proof.
  intros d n. split; [apply filter_sorted_by_len_desc|].
  intros html k1 v1 k2 v2 Hne Hlen. unfold _replace_links.
  cbn [Dict.keys map fst Dict.sorted_by_len_desc fold_right
       Dict.insert_by_len].
  rewrite Hlen, Nat.leb_refl. cbn [fold_left Dict.get].
  rewrite str_eqb_refl.
  apply str_eqb_neq in Hne. now rewrite Hne, str_eqb_refl.
Qed.

Lemma equal_length_keys_in_insertion_order_witness :
  _replace_links (lit "abc") [(lit "bc", lit "X"); (lit "ab", lit "Y")]
  = replace (replace (lit "abc") (lit "bc") (lit "X")) (lit "ab") (lit "Y").
Proof.
  apply (equal_length_keys_in_insertion_order [] 0);
    [discriminate | reflexivity].
Defined.

Section RoundTrip.

Lemma startswith_app_false a sep rest :
  startswith a sep = false -> length sep <= length a ->
  startswith (a ++ rest) sep = false.
Proof.
  revert a. induction sep as [|x sep IH]; intros a H L.
  - now rewrite startswith_nil in H.
  - destruct a as [|y a]; [simpl in L; lia|]. simpl in *.
    destruct (x =? y)%N; trivial. apply IH; [exact H | lia].
Qed.

Lemma find_app_keep a sep rest i :
  find a sep = Some i -> find (a ++ rest) sep = Some i.
Proof.
  revert i. induction a as [|c a IH]; intros i; rewrite find_eq.
  - destruct (startswith [] sep) eqn:E; [|discriminate]. intros [= <-].
    destruct sep; [|discriminate]. apply find_nil_sub.
  - destruct (startswith (c :: a) sep) eqn:E.
    + intros [= <-]. rewrite find_eq.
      apply startswith_spec in E as [r E]. rewrite E, <- app_assoc.
      now rewrite startswith_app.
    + destruct (find a sep) as [j|] eqn:F; [|discriminate].
      intros [= <-]. rewrite find_eq.
      rewrite startswith_app_false; trivial.
      * cbn [app]. now rewrite (IH j eq_refl).
      * apply find_length in F. simpl. lia.
Qed.

Lemma split_join sep (front : list str) (lst : str) :
  sep <> [] ->
  Forall (fun x => find (x ++ sep) sep = Some (length x)) front ->
  find lst sep = None ->
  split (join sep (front ++ [lst])) sep = front ++ [lst].
Proof.
  intros Hsep Hfront Hlst. induction Hfront as [|x front Hx _ IH].
  - cbn [app join]. rewrite split_eq by trivial. now rewrite Hlst.
  - cbn [app]. rewrite join_cons by now destruct front.
    rewrite split_eq by trivial.
    rewrite app_assoc, (find_app_keep _ _ _ _ Hx), <- app_assoc.
    rewrite firstn_app, firstn_all, Nat.sub_diag, firstn_O, app_nil_r.
    rewrite skipn_app, skipn_all2 by lia.
    replace (length x + length sep - length x) with (length sep) by lia.
    rewrite skipn_app, skipn_all, Nat.sub_diag. cbn [app skipn].
    now rewrite IH.
Qed.

End RoundTrip.

(** X8.  A document put together from a preamble, some parts and an
    epilogue, joined by the marker --boundary, is taken apart into exactly
    these parts, provided the marker does not occur inside the epilogue
    and, in each other segment followed by the marker, occurs first at the
    end of that segment. *)
Theorem extract_parts_of_joined_document :
  forall (content hb b preamble epilogue : str) (parts : list str),
    header_block content = Some hb ->
    _parse_boundary hb = Some b ->
    let marker := lit "--" ++ b in
    content = join marker (preamble :: parts ++ [epilogue]) ->
    Forall (fun x => find (x ++ marker) marker = Some (length x))
           (preamble :: parts) ->
    find epilogue marker = None ->
    split content marker = preamble :: parts ++ [epilogue]
    /\ _extract_parts init content = Ok (with_boundary init (Some b), parts).
Proof.
  intros content hb b preamble epilogue parts Hhb Hb marker -> Hseg Hepi.
  assert (S : split (join marker (preamble :: parts ++ [epilogue])) marker
              = preamble :: parts ++ [epilogue]).
  { change (preamble :: parts ++ [epilogue])
      with ((preamble :: parts) ++ [epilogue]).
    apply split_join; trivial. apply marker_nonempty. }
  split; trivial.
  rewrite (extract_parts_ok init _ hb b Hhb Hb). fold marker. rewrite S.
  unfold slice_1_m1. cbn [tl]. now rewrite removelast_last.
Qed.

Lemma extract_parts_of_joined_document_witness :
  split sample_document (lit "--" ++ lit "XYZ")
  = (lit "MIME-Version: 1.0" ++ [LF]
     ++ lit "Content-Type: multipart/related; boundary=" ++ [quote]
     ++ lit "XYZ" ++ [quote] ++ [LF; LF])
    :: [sample_html; [LF]; sample_image] ++ [lit "--" ++ [LF]]
  /\ _extract_parts init sample_document
     = Ok (with_boundary init (Some (lit "XYZ")),
           [sample_html; [LF]; sample_image]).
Proof.
  apply (extract_parts_of_joined_document sample_document
           (lit "MIME-Version: 1.0" ++ [LF]
            ++ lit "Content-Type: multipart/related; boundary=" ++ [quote]
            ++ lit "XYZ" ++ [quote])
           (lit "XYZ")).
  - vm_compute. reflexivity.
  - vm_compute. reflexivity.
  - vm_compute. reflexivity.
  - repeat constructor; vm_compute; reflexivity.
  - vm_compute. reflexivity.
Defined.

Section CleanValues.
Import Re.

Lemma match_here_outside p s g :
  match_here p s = Some g -> Forall (outside (excluded p)) g.
Proof.
  unfold match_here.
  destruct (match_literal _ _ s) as [r|]; [|discriminate].
  destruct (span_excluding _ r) as [g0 r'] eqn:S.
  apply span_excluding_spec in S as (_ & Hg & _).
  destruct g0 as [|c g0]; [discriminate|].
  destruct (closing p) as [cl|].
  - destruct r' as [|c' r']; [discriminate|].
    destruct (c' =? cl)%N; [|discriminate]. now intros [= <-].
  - now intros [= <-].
Qed.

Lemma search_outside p s g :
  search p s = Some g -> Forall (outside (excluded p)) g.
Proof.
  intros H. apply search_Some in H as (pre & t & _ & H).
  eauto using match_here_outside.
Qed.

Lemma outside_not_In ex g c :
  Forall (outside ex) g -> In c ex -> ~ In c g.
Proof.
  intros Hg Hc Hin. rewrite Forall_forall in Hg.
  specialize (Hg c Hin). unfold outside in Hg.
  assert (existsb (N.eqb c) ex = true); [|congruence].
  apply existsb_exists. exists c. split; trivial. apply N.eqb_refl.
Qed.

Lemma In_strip c s : In c (strip s) -> In c s.
Proof.
  intros H. destruct (strip_decomp s) as (ws1 & ws2 & E & _).
  rewrite E. apply in_or_app. right. apply in_or_app. now left.
Qed.

Lemma strip_idem s : strip (strip s) = strip s.
Proof.
  unfold strip at 1. rewrite (lstrip_by_id isspace (strip s)).
  - unfold rstrip_by. rewrite lstrip_by_id; [apply rev_involutive|].
    intros c r E. apply (strip_last s (rev r) c).
    rewrite <- (rev_involutive (strip s)), E. reflexivity.
  - intros c r E. eauto using strip_head.
Qed.

End CleanValues.

(** X9.  The values taken from the headers are trimmed and cannot hold the
    character that ends them: the content type has no line feed and no
    semicolon, a Content-Location key has no line feed, a Content-ID has
    no closing angle bracket, and none of them starts or ends with
    whitespace. *)
Theorem header_values_are_clean :
  forall part : str,
    (~ In LF (content_type_of part) /\ ~ In 59%N (content_type_of part)
     /\ strip (content_type_of part) = content_type_of part)
    /\ (forall k, location_of part = Some k -> ~ In LF k /\ strip k = k)
    /\ (forall id, cid_of part = Some id -> ~ In 62%N id /\ strip id = id).
Proof.
  intros part. split; [|split].
  - unfold content_type_of.
    destruct (Re.search re_content_type (headers_of part)) as [g|] eqn:S.
    + apply search_outside in S. cbn [Re.excluded re_content_type] in S.
      repeat split.
      * intros H. apply In_strip in H. revert H.
        apply (outside_not_In _ _ _ S). now left.
      * intros H. apply In_strip in H. revert H.
        apply (outside_not_In _ _ _ S). right. now left.
      * apply strip_idem.
    + repeat split; try reflexivity;
        intros H; cbv in H;
        repeat (destruct H as [H|H]; [discriminate|]); contradiction.
  - intros k. unfold location_of.
    destruct (Re.search re_location (headers_of part)) as [g|] eqn:S;
      [|discriminate].
    intros [= <-]. apply search_outside in S.
    cbn [Re.excluded re_location] in S. split; [|apply strip_idem].
    intros H. apply In_strip in H. revert H.
    apply (outside_not_In _ _ _ S). now left.
  - intros id. unfold cid_of.
    destruct (Re.search re_cid (headers_of part)) as [g|] eqn:S;
      [|discriminate].
    intros [= <-]. apply search_outside in S.
    cbn [Re.excluded re_cid] in S. split; [|apply strip_idem].
    intros H. apply In_strip in H. revert H.
    apply (outside_not_In _ _ _ S). now left.
Qed.

Section Normalization.

Lemma In_firstn_skipn (c : char) n (s : str) :
  (In c (firstn n s) -> In c s) /\ (In c (skipn n s) -> In c s).
Proof.
  split; intros H; rewrite <- (firstn_skipn n s); apply in_or_app; auto.
Qed.

Lemma replace_crlf_clean s : ~ In CR s -> replace s [CR; LF] [LF] = s.
Proof. intros H. apply replace_absent. now apply find_absent_head. Qed.

End Normalization.

(** X10.  For a part that holds no carriage return, which is every part of
    a file read in text mode, the two replacements of lines 56-57 change
    nothing: the header block and the body are the two sides of the first
    blank line of the stripped part, and together with that blank line
    they make up the stripped part again. *)
Theorem no_carriage_return_no_change :
  forall part : str,
    ~ In CR part ->
    headers_of part = fst (fst (partition (strip part) [LF; LF]))
    /\ body_of part = snd (partition (strip part) [LF; LF])
    /\ (occurs [LF; LF] (strip part) ->
        headers_of part ++ [LF; LF] ++ body_of part = strip part)
    /\ (~ occurs [LF; LF] (strip part) ->
        headers_of part = strip part /\ body_of part = []).
Proof.
  intros part Hcr. unfold headers_of, body_of. rewrite part_text_eq.
  assert (Hs : ~ In CR (strip part)) by (intros H; now apply In_strip in H).
  unfold partition.
  destruct (find (strip part) [LF; LF]) as [i|] eqn:F; cbn [fst snd].
  - assert (H1 : ~ In CR (firstn i (strip part)))
      by (intros H; now apply In_firstn_skipn in H).
    assert (H2 : ~ In CR (skipn (i + length [LF; LF]) (strip part)))
      by (intros H; now apply In_firstn_skipn in H).
    rewrite !replace_crlf_clean by trivial.
    split; [reflexivity | split; [reflexivity | split]].
    + intros _. symmetry. now apply find_Some.
    + intros Ho. apply find_None in Ho. congruence.
  - rewrite replace_crlf_clean by trivial.
    split; [reflexivity | split; [reflexivity | split]].
    + intros Ho. apply find_None in F. contradiction.
    + intros _. now split.
Qed.

Lemma no_carriage_return_no_change_witness :
  headers_of sample_image
  = fst (fst (partition (strip sample_image) [LF; LF]))
  /\ body_of sample_image = snd (partition (strip sample_image) [LF; LF])
  /\ (occurs [LF; LF] (strip sample_image) ->
      headers_of sample_image ++ [LF; LF] ++ body_of sample_image
      = strip sample_image)
  /\ (~ occurs [LF; LF] (strip sample_image) ->
      headers_of sample_image = strip sample_image
      /\ body_of sample_image = []).
Proof.
  apply (no_carriage_return_no_change sample_image).
  intros H. vm_compute in H.
  repeat (destruct H as [H|H]; [discriminate|]). contradiction.
Defined.

Ltac Zify.zify_post_hook ::= Z.to_euclidean_division_equations.

Ltac bool_to_prop :=
  repeat first [ rewrite andb_true_iff | rewrite orb_true_iff
               | rewrite N.leb_le | rewrite N.ltb_lt | rewrite N.eqb_eq ].

Ltac bool_true := bool_to_prop; lia.

Ltac bool_false := apply not_true_is_false; bool_to_prop; lia.

Section Bytes.

Lemma to_N_byte_of_N n : (n < 256)%N -> Byte.to_N (byte_of_N n) = n.
Proof.
  intros H. unfold byte_of_N. rewrite N.mod_small by trivial.
  destruct (Byte.of_N n) as [b|] eqn:E.
  - now apply Byte.to_of_N.
  - apply Byte.of_N_None_iff in E. lia.
Qed.

Lemma byte_of_N_to_N b : byte_of_N (Byte.to_N b) = b.
Proof.
  unfold byte_of_N. pose proof (Byte.to_N_bounded b).
  rewrite N.mod_small by lia. now rewrite Byte.of_to_N.
Qed.

Lemma to_of_Ns l : Forall (fun n => n < 256)%N l -> to_Ns (of_Ns l) = l.
Proof.
  induction 1 as [|n l Hn _ IH]; [reflexivity|].
  unfold to_Ns, of_Ns in *. cbn [map].
  now rewrite IH, to_N_byte_of_N.
Qed.

Lemma of_to_Ns b : of_Ns (to_Ns b) = b.
Proof.
  induction b as [|x b IH]; [reflexivity|].
  unfold to_Ns, of_Ns in *. cbn [map]. now rewrite IH, byte_of_N_to_N.
Qed.

Lemma to_Ns_bounded b : Forall (fun n => n < 256)%N (to_Ns b).
Proof.
  induction b as [|x b IH]; constructor; trivial.
  pose proof (Byte.to_N_bounded x). lia.
Qed.

Lemma encode_ascii s : is_ascii s = true -> flat_map encode_char s = s.
Proof.
  induction s as [|c s IH]; [reflexivity|]. cbn [is_ascii forallb].
  intros H. apply andb_true_iff in H as [Hc Hs].
  cbn [flat_map]. unfold encode_char at 1. rewrite Hc.
  cbn [app]. f_equal. now apply IH.
Qed.

End Bytes.

Section QuotedPrintable.

Lemma a2b_qp_plain s : ~ In 61%N s -> a2b_qp false s = s.
Proof.
  induction s as [|c s IH]; [reflexivity|]. intros H.
  cbn [a2b_qp]. destruct (N.eqb_spec c 61) as [->|_].
  - exfalso. apply H. now left.
  - f_equal. apply IH. intros Hin. apply H. now right.
Qed.

End QuotedPrintable.

(** X11.  A quoted-printable body made of ASCII characters without an
    equals sign decodes to itself: the result is the one of an unencoded
    body, and nothing is logged.  A body with a character outside ASCII
    makes both decoders raise, so base64 and quoted-printable then keep
    the undecoded body and log the warning. *)
Theorem quoted_printable_plain_text :
  forall body : str,
    (is_ascii body = true -> ~ In 61%N body ->
     _decode_body (lit "quoted-printable") body = (encode_utf8 body, []))
    /\ (is_ascii body = false ->
        _decode_body (lit "quoted-printable") body
        = (encode_utf8 body, [WARNING_decoding_error])
        /\ _decode_body (lit "base64") body
           = (encode_utf8 body, [WARNING_decoding_error])).
Proof.
  intros body. unfold _decode_body.
  change (str_eqb (lit "quoted-printable") (lit "base64")) with false.
  rewrite !str_eqb_refl. cbv iota.
  unfold quopri_decodestring, b64decode, encode_utf8. split.
  - intros Ha Hq. rewrite Ha, a2b_qp_plain, encode_ascii; trivial.
  - intros Ha. now rewrite Ha.
Qed.

Lemma quoted_printable_plain_text_witness :
  _decode_body (lit "quoted-printable") (lit "<p>plain</p>")
  = (encode_utf8 (lit "<p>plain</p>"), [])
  /\ _decode_body (lit "base64") [233%N]
     = (encode_utf8 [233%N], [WARNING_decoding_error]).
Proof.
  split.
  - destruct (quoted_printable_plain_text (lit "<p>plain</p>")) as (H & _).
    apply H; [reflexivity|].
    intros Hin. vm_compute in Hin.
    repeat (destruct Hin as [Hin|Hin]; [discriminate|]). contradiction.
  - destruct (quoted_printable_plain_text [233%N]) as (_ & H).
    apply H. reflexivity.
Defined.

Section Base64.

Local Open Scope N_scope.

Lemma list_ind3 (P : list N -> Prop) :
  P [] -> (forall x, P [x]) -> (forall x y, P [x; y]) ->
  (forall x y z r, P r -> P (x :: y :: z :: r)) ->
  forall l, P l.
Proof.
  intros H0 H1 H2 H3 l.
  remember (length l) as n eqn:Hn. revert l Hn.
  induction n as [n IH] using lt_wf_ind. intros l ->.
  destruct l as [|x [|y [|z r]]]; auto.
  apply H3. apply (IH (length r)); [simpl; lia | reflexivity].
Qed.

Lemma b64_table (k : nat) :
  (k < 64)%nat ->
  b64val (nth k b64alphabet 0) = Some (N.of_nat k)
  /\ (nth k b64alphabet 0 =? 61) = false.
Proof.
  intros Hk.
  do 64 (destruct k as [|k]; [vm_compute; split; reflexivity|]).
  lia.
Qed.

Lemma b64val_b64char n :
  n < 64 -> b64val (b64char n) = Some n /\ (b64char n =? 61) = false.
Proof.
  intros H. unfold b64char.
  destruct (b64_table (N.to_nat n)) as (H1 & H2); [lia|].
  now rewrite H1, H2, N2Nat.id.
Qed.

Lemma b64char_ascii n : (b64char n <? 128) = true.
Proof.
  unfold b64char.
  destruct (nth_in_or_default (N.to_nat n) b64alphabet 0) as [H| ->];
    [|reflexivity].
  revert H. generalize (nth (N.to_nat n) b64alphabet 0). intros c H.
  assert (A : forallb (fun c => c <? 128) b64alphabet = true)
    by (vm_compute; reflexivity).
  rewrite forallb_forall in A. now apply A.
Qed.

Lemma a2b_base64_step q left pads n s :
  n < 64 ->
  a2b_base64 q left pads (b64char n :: s)
  = match q with
    | 0%nat => a2b_base64 1 n 0 s
    | 1%nat => option_map (cons (left * 4 + n / 16))
                          (a2b_base64 2 (n mod 16) 0 s)
    | 2%nat => option_map (cons (left * 16 + n / 4))
                          (a2b_base64 3 (n mod 4) 0 s)
    | _ => option_map (cons (left * 64 + n)) (a2b_base64 0 0 0 s)
    end.
Proof.
  intros H. destruct (b64val_b64char n H) as (V & E).
  cbn [a2b_base64]. now rewrite E, V.
Qed.

Lemma a2b_base64_encode (l : list N) :
  Forall (fun n => n < 256) l ->
  a2b_base64 0 0 0 (b64encode_go l) = Some l.
Proof.
  induction l as [|x|x y|x y z r IH] using list_ind3; intros Hl.
  - reflexivity.
  - inversion Hl as [|? ? Hx _]; subst. cbn [b64encode_go].
    rewrite !a2b_base64_step by lia. cbn [a2b_base64 option_map].
    cbn. f_equal. f_equal. lia.
  - inversion Hl as [|? ? Hx Hl']; subst.
    inversion Hl' as [|? ? Hy _]; subst. cbn [b64encode_go].
    rewrite !a2b_base64_step by lia. cbn [a2b_base64 option_map].
    cbn. f_equal. f_equal; [lia|]. f_equal. lia.
  - inversion Hl as [|? ? Hx Hl']; subst.
    inversion Hl' as [|? ? Hy Hl'']; subst.
    inversion Hl'' as [|? ? Hz Hr]; subst. cbn [b64encode_go].
    rewrite !a2b_base64_step by lia. rewrite (IH Hr).
    cbn [option_map]. f_equal. f_equal; [lia|]. f_equal; [lia|].
    f_equal. lia.
Qed.

Lemma b64encode_go_ascii (l : list N) : is_ascii (b64encode_go l) = true.
Proof.
  unfold is_ascii.
  induction l as [|x|x y|x y z r IH] using list_ind3;
    cbn [b64encode_go forallb]; rewrite ?b64char_ascii; trivial.
Qed.

Lemma b64decode_b64encode (b : bytes) : b64decode (b64encode b) = Some b.
Proof.
  unfold b64decode, b64encode.
  rewrite b64encode_go_ascii, a2b_base64_encode by apply to_Ns_bounded.
  cbn [option_map]. now rewrite of_to_Ns.
Qed.

End Base64.

(** X12.  Base64 round trip: decoding the base64 text of any bytes gives
    the bytes back.  So a resource whose body is the base64 text of its
    content, declared base64, is decoded without a warning and its data
    URI carries that same text as payload. *)
Theorem base64_payload_round_trip :
  forall (b : bytes) (content_type : str),
    b64decode (b64encode b) = Some b
    /\ _decode_body (lit "base64") (b64encode b) = (b, [])
    /\ _make_data_uri content_type
                      (fst (_decode_body (lit "base64") (b64encode b)))
       = lit "data:" ++ content_type ++ lit ";base64," ++ b64encode b.
Proof.
  intros b content_type.
  assert (D : _decode_body (lit "base64") (b64encode b) = (b, [])).
  { unfold _decode_body. rewrite str_eqb_refl.
    now rewrite b64decode_b64encode. }
  split; [apply b64decode_b64encode | split; [exact D|]].
  now rewrite D.
Qed.

Section Utf8.

Local Open Scope N_scope.

Lemma is_scalar_spec c :
  is_scalar c = true <-> c < 55296 \/ (57344 <= c /\ c < 1114112).
Proof. unfold is_scalar. bool_true. Qed.

Lemma encode_char_bounded c :
  is_scalar c = true -> Forall (fun n => n < 256) (encode_char c).
Proof.
  intros H. apply is_scalar_spec in H. unfold encode_char.
  destruct (N.ltb_spec c 128); [repeat constructor; lia|].
  destruct (N.ltb_spec c 2048); [repeat constructor; lia|].
  destruct (N.ltb_spec c 65536); repeat constructor; lia.
Qed.

Lemma decode_encode_char c rest :
  is_scalar c = true ->
  decode_utf8_go (encode_char c ++ rest)
  = option_map (cons c) (decode_utf8_go rest).
Proof.
  intros H. apply is_scalar_spec in H. unfold encode_char.
  destruct (N.ltb_spec c 128) as [L1|L1].
  - cbn [app decode_utf8_go].
    replace (c <? 128) with true by (symmetry; bool_true). reflexivity.
  - destruct (N.ltb_spec c 2048) as [L2|L2].
    + cbn [app decode_utf8_go]. unfold cont.
      replace (192 + c / 64 <? 128) with false by (symmetry; bool_false).
      replace ((194 <=? 192 + c / 64) && (192 + c / 64 <=? 223)
               && ((128 <=? 128 + c mod 64) && (128 + c mod 64 <=? 191)))
        with true by (symmetry; bool_true).
      do 2 f_equal. lia.
    + destruct (N.ltb_spec c 65536) as [L3|L3].
      * cbn [app decode_utf8_go]. unfold cont, lead3, cont.
        set (b0 := 224 + c / 4096).
        set (b1 := 128 + (c / 64) mod 64).
        set (b2 := 128 + c mod 64).
        replace (b0 <? 128) with false
          by (symmetry; subst b0; bool_false).
        replace ((194 <=? b0) && (b0 <=? 223)
                 && ((128 <=? b1) && (b1 <=? 191)))
          with false by (symmetry; subst b0 b1; bool_false).
        replace (((b0 =? 224) && (160 <=? b1) && (b1 <=? 191)
                  || (225 <=? b0) && (b0 <=? 236)
                     && ((128 <=? b1) && (b1 <=? 191))
                  || (b0 =? 237) && (128 <=? b1) && (b1 <=? 159)
                  || (238 <=? b0) && (b0 <=? 239)
                     && ((128 <=? b1) && (b1 <=? 191)))
                 && ((128 <=? b2) && (b2 <=? 191)))
          with true by (symmetry; subst b0 b1 b2; bool_true).
        do 2 f_equal. subst b0 b1 b2. lia.
      * cbn [app decode_utf8_go]. unfold cont, lead3, lead4, cont.
        set (b0 := 240 + c / 262144).
        set (b1 := 128 + (c / 4096) mod 64).
        set (b2 := 128 + (c / 64) mod 64).
        set (b3 := 128 + c mod 64).
        replace (b0 <? 128) with false
          by (symmetry; subst b0; bool_false).
        replace ((194 <=? b0) && (b0 <=? 223)
                 && ((128 <=? b1) && (b1 <=? 191)))
          with false by (symmetry; subst b0 b1; bool_false).
        replace (((b0 =? 224) && (160 <=? b1) && (b1 <=? 191)
                  || (225 <=? b0) && (b0 <=? 236)
                     && ((128 <=? b1) && (b1 <=? 191))
                  || (b0 =? 237) && (128 <=? b1) && (b1 <=? 159)
                  || (238 <=? b0) && (b0 <=? 239)
                     && ((128 <=? b1) && (b1 <=? 191)))
                 && ((128 <=? b2) && (b2 <=? 191)))
          with false by (symmetry; subst b0 b1 b2; bool_false).
        replace (((b0 =? 240) && (144 <=? b1) && (b1 <=? 191)
                  || (241 <=? b0) && (b0 <=? 243)
                     && ((128 <=? b1) && (b1 <=? 191))
                  || (b0 =? 244) && (128 <=? b1) && (b1 <=? 143))
                 && ((128 <=? b2) && (b2 <=? 191))
                 && ((128 <=? b3) && (b3 <=? 191)))
          with true by (symmetry; subst b0 b1 b2 b3; bool_true).
        do 2 f_equal. subst b0 b1 b2 b3. lia.
Qed.

Lemma decode_encode_go s :
  forallb is_scalar s = true ->
  decode_utf8_go (flat_map encode_char s) = Some s.
Proof.
  induction s as [|c s IH]; [reflexivity|]. cbn [forallb flat_map].
  intros H. apply andb_true_iff in H as [Hc Hs].
  now rewrite decode_encode_char, IH.
Qed.

Lemma encode_bounded s :
  forallb is_scalar s = true ->
  Forall (fun n => n < 256) (flat_map encode_char s).
Proof.
  induction s as [|c s IH]; [constructor|]. cbn [forallb flat_map].
  intros H. apply andb_true_iff in H as [Hc Hs].
  apply Forall_app. split; [now apply encode_char_bounded | now apply IH].
Qed.

Lemma decode_utf8_encode_utf8 s :
  forallb is_scalar s = true -> decode_utf8 (encode_utf8 s) = Some s.
Proof.
  intros H. unfold decode_utf8, encode_utf8.
  rewrite to_of_Ns by now apply encode_bounded.
  now apply decode_encode_go.
Qed.

End Utf8.

(** X13.  UTF-8 round trip: for text made of Unicode scalar values,
    decoding the UTF-8 encoding gives the text back.  So a part whose
    transfer encoding is neither base64 nor quoted-printable yields, as
    text, exactly its normalized body; this is what becomes [main_html]
    for the first text/html part. *)
Theorem unencoded_text_round_trip :
  forall part : str,
    forallb is_scalar (body_of part) = true ->
    encoding_of part <> lit "base64" ->
    encoding_of part <> lit "quoted-printable" ->
    decode_utf8 (encode_utf8 (body_of part)) = Some (body_of part)
    /\ decode_text (decoded_of part) = body_of part
    /\ logged_of part = []
    /\ (forall st,
          is_html part = true -> main_html st = None ->
          main_html (_process_part st part) = Some (body_of part)).
Proof.
  intros part Hs H1 H2.
  pose proof (decode_utf8_encode_utf8 _ Hs) as R.
  apply str_eqb_neq in H1, H2.
  assert (D : _decode_body (encoding_of part) (body_of part)
              = (encode_utf8 (body_of part), [])).
  { unfold _decode_body. now rewrite H1, H2. }
  assert (T : decode_text (decoded_of part) = body_of part).
  { unfold decode_text, decoded_of. rewrite D. cbn [fst]. now rewrite R. }
  split; [exact R | split; [exact T | split]].
  - unfold logged_of. now rewrite D.
  - intros st Hh Hm. rewrite process_first_html by trivial.
    unfold store_main_html. cbn [main_html with_main_html].
    now rewrite T.
Qed.

Lemma unencoded_text_round_trip_witness :
  main_html (_process_part init sample_html) = Some (body_of sample_html).
Proof.
  destruct (unencoded_text_round_trip sample_html) as (_ & _ & _ & H).
  - vm_compute. reflexivity.
  - vm_compute. discriminate.
  - vm_compute. discriminate.
  - apply H; vm_compute; reflexivity.
Defined.

Section ReplaceSplit.

Lemma replace_join_split s old new :
  old <> [] -> replace s old new = join new (split s old).
Proof.
  intros Hold.
  apply (split_ind old (fun s l => replace s old new = join new l)); trivial.
  - intros s0 F. rewrite replace_eq by trivial. now rewrite F.
  - intros s0 i F rest IH. rewrite replace_eq by trivial. rewrite F.
    rewrite join_cons by now apply split_nonempty.
    fold rest. now rewrite IH.
Qed.

End ReplaceSplit.

(** X14.  Replacing a non-empty key is cutting the text at the key and
    joining the pieces with the replacement.  For a map with one entry
    [_replace_links] therefore returns the pieces of the page between the
    occurrences of the key, joined by the data URI. *)
Theorem replace_is_split_then_join :
  forall (html k v : str),
    k <> [] ->
    replace html k v = join v (split html k)
    /\ _replace_links html [(k, v)] = join v (split html k).
Proof.
  intros html k v Hk.
  pose proof (replace_join_split html k v Hk) as R.
  split; trivial. unfold _replace_links.
  cbn [Dict.keys map fst Dict.sorted_by_len_desc fold_right
       Dict.insert_by_len fold_left Dict.get].
  now rewrite str_eqb_refl.
Qed.

Lemma replace_is_split_then_join_witness :
  _replace_links (lit "<img src=cid:logo><a href=cid:logo>")
                 [(lit "cid:logo", lit "data:image/png;base64,AAAA")]
  = join (lit "data:image/png;base64,AAAA")
         (split (lit "<img src=cid:logo><a href=cid:logo>") (lit "cid:logo")).
Proof.
  apply (replace_is_split_then_join
           (lit "<img src=cid:logo><a href=cid:logo>")).
  discriminate.
Defined.

Section DataUri.

Lemma b64encode_injective (b1 b2 : bytes) :
  b64encode b1 = b64encode b2 -> b1 = b2.
Proof.
  intros H. apply (f_equal b64decode) in H.
  rewrite !b64decode_b64encode in H. congruence.
Qed.

End DataUri.

(** X15.  For one content type, the data URI determines the bytes: two
    different contents never get the same data URI. *)
Theorem data_uri_determines_content :
  forall (content_type : str) (b1 b2 : bytes),
    _make_data_uri content_type b1 = _make_data_uri content_type b2 ->
    b1 = b2.
Proof.
  intros content_type b1 b2. unfold _make_data_uri. intros H.
  do 3 apply app_inv_head in H. now apply b64encode_injective.
Qed.

Lemma data_uri_determines_content_witness :
  of_Ns [104; 105]%N = of_Ns [104; 105]%N.
Proof.
  apply (data_uri_determines_content (lit "text/plain")). reflexivity.
Defined.

Section HeaderNames.
Import Re.

Local Open Scope N_scope.

Lemma chr_matches_lower a b :
  a < 128 -> to_lower b = to_lower a -> chr_matches true a b = true.
Proof.
  intros Ha E. unfold chr_matches.
  assert (Hb : sre_lower b = to_lower a).
  { rewrite <- E. unfold sre_lower, to_lower in *.
    destruct ((65 <=? b) && (b <=? 90)) eqn:U; trivial.
    destruct ((65 <=? a) && (a <=? 90)) eqn:V.
    - apply andb_true_iff in V as [V1 V2].
      apply N.leb_le in V1, V2.
      destruct (N.eqb_spec b 304); [lia|].
      destruct (N.eqb_spec b 8490); [lia|]. reflexivity.
    - destruct (N.eqb_spec b 304); [lia|].
      destruct (N.eqb_spec b 8490); [lia|]. reflexivity. }
  now rewrite Hb, N.eqb_refl.
Qed.

Lemma match_literal_any_case l name r :
  is_ascii l = true -> lower name = lower l ->
  match_literal true l (name ++ r) = Some r.
Proof.
  revert name. induction l as [|a l IH]; intros name Hl E.
  - destruct name; [reflexivity | discriminate].
  - destruct name as [|b name]; [discriminate|].
    cbn [lower map] in E. injection E as Eb En.
    cbn [is_ascii forallb] in Hl. apply andb_true_iff in Hl as [Ha Hl].
    apply N.ltb_lt in Ha. cbn [app match_literal].
    rewrite chr_matches_lower by trivial. now apply IH.
Qed.

End HeaderNames.

(** X16.  Header names are matched in any letter case.  When the header
    block starts with Content-Type, Content-Transfer-Encoding or
    Content-Location, a colon and a space, spelled in any mix of upper and
    lower case, followed by a non-empty value that runs to the end of the
    line (for the content type: to the first semicolon), the search
    returns that value. *)
Theorem header_name_in_any_case :
  forall (p : Re.pattern) (name value rest : str),
    In p [re_content_type; re_encoding; re_location] ->
    lower name = lower (Re.literal p) ->
    value <> [] ->
    Forall (outside (Re.excluded p)) value ->
    (rest = []
     \/ exists c r, rest = c :: r /\ existsb (N.eqb c) (Re.excluded p) = true) ->
    Re.search p (name ++ value ++ rest) = Some value.
Proof.
  intros p name value rest Hp Hname Hne Hval Hrest.
  assert (Hpat : is_ascii (Re.literal p) = true
                 /\ Re.ignorecase p = true /\ Re.closing p = None).
  { destruct Hp as [<-|[<-|[<-|[]]]]; repeat split; reflexivity. }
  destruct Hpat as (Ha & Hi & Hc).
  rewrite search_eq. unfold Re.match_here.
  rewrite Hi, (match_literal_any_case _ _ _ Ha Hname).
  rewrite (span_excluding_app _ _ _ Hval Hrest), Hc.
  destruct value; [congruence | reflexivity].
Qed.

Lemma header_name_in_any_case_witness :
  Re.search re_content_type
            (lit "CONTENT-type: " ++ lit "text/html" ++ lit "; charset=utf-8")
  = Some (lit "text/html").
Proof.
  apply (header_name_in_any_case re_content_type).
  - left. reflexivity.
  - reflexivity.
  - discriminate.
  - repeat constructor.
  - right. eexists. eexists. split; reflexivity.
Defined.

Section FirstOccurrence.

Lemma removelast_length (sub : str) :
  sub <> [] -> length (removelast sub) < length sub.
Proof.
  intros H. pose proof (app_removelast_last 0%N H) as E.
  apply (f_equal (@length _)) in E. rewrite length_app in E.
  simpl in E. unfold str, char in *. lia.
Qed.

(** Nothing before the occurrence found even begins an occurrence that
    would end inside it. *)
Lemma find_is_first s sub i :
  sub <> [] -> find s sub = Some i ->
  find (firstn i s ++ removelast sub) sub = None.
Proof.
  intros Hsub. revert i.
  induction s as [|c s IH]; intros i; rewrite find_eq.
  - destruct (startswith [] sub) eqn:E; [|discriminate].
    destruct sub; [congruence | discriminate].
  - destruct (startswith (c :: s) sub) eqn:E.
    + intros [= <-]. cbn [firstn app].
      destruct (find (removelast sub) sub) as [j|] eqn:F; trivial.
      apply find_length in F. pose proof (removelast_length sub Hsub). lia.
    + destruct (find s sub) as [j|] eqn:F; [|discriminate].
      intros [= <-]. cbn [firstn app]. rewrite find_eq.
      destruct (startswith (c :: firstn j s ++ removelast sub) sub) eqn:E'.
      * exfalso. apply startswith_spec in E' as [r E'].
        assert (startswith (c :: s) sub = true); [|congruence].
        apply startswith_spec.
        exists (r ++ [last sub 0%N] ++ skipn (j + length sub) s).
        rewrite app_assoc, <- E'. cbn [app]. f_equal.
        rewrite (find_Some _ _ _ F) at 1.
        rewrite (app_removelast_last 0%N Hsub) at 1.
        now rewrite <- !app_assoc.
      * now rewrite (IH j eq_refl).
Qed.

End FirstOccurrence.

(** X17.  The header block taken at line 41 is the text before the first
    blank line of the document: the document is the header block, the
    blank line and a rest, and no blank line begins inside the header
    block, not even with its last character. *)
Theorem header_block_ends_at_first_blank_line :
  forall (content hb : str),
    header_block content = Some hb ->
    (exists rest, content = hb ++ [LF; LF] ++ rest)
    /\ ~ occurs [LF; LF] (hb ++ [LF]).
Proof.
  intros content hb. unfold header_block.
  destruct (find content [LF; LF]) as [i|] eqn:F; [|discriminate].
  intros [= <-]. split.
  - exists (skipn (i + length [LF; LF]) content). now apply find_Some.
  - apply find_None.
    apply (find_is_first content [LF; LF] i); [discriminate | exact F].
Qed.

Lemma header_block_ends_at_first_blank_line_witness :
  (exists rest,
      sample_plain_document
      = (lit "Content-Type: multipart/related; boundary=" ++ [quote]
         ++ lit "XYZ" ++ [quote]) ++ [LF; LF] ++ rest)
  /\ ~ occurs [LF; LF]
       ((lit "Content-Type: multipart/related; boundary=" ++ [quote]
         ++ lit "XYZ" ++ [quote]) ++ [LF]).
Proof.
  apply (header_block_ends_at_first_blank_line sample_plain_document).
  vm_compute. reflexivity.
Defined.

(** * The link rewriter, the resource keys and line endings *)

(** ** C3: longest key first *)




(** ** C6: the keys are the trimmed header values *)

Section HeaderMatch.
Import Re.

Lemma match_here_spec p t g :
  match_here p t = Some g ->
  exists rest,
    match_literal (ignorecase p) (literal p) t = Some (g ++ rest)
    /\ g <> []
    /\ Forall (outside (excluded p)) g
    /\ (rest = []
        \/ exists c r, rest = c :: r /\ existsb (N.eqb c) (excluded p) = true)
    /\ (forall c, closing p = Some c -> exists r, rest = c :: r).
Proof.
  unfold match_here.
  destruct (match_literal _ _ t) as [r0|]; [|discriminate].
  destruct (span_excluding _ r0) as [g0 r'] eqn:S.
  apply span_excluding_spec in S as (-> & Hg & Hr).
  destruct g0 as [|c0 g0]; [discriminate|].
  destruct (closing p) as [cl|].
  - destruct r' as [|c' r']; [discriminate|].
    destruct (N.eqb_spec c' cl) as [->|]; [|discriminate].
    intros [= <-]. exists (cl :: r').
    repeat split; trivial; try discriminate.
    intros c [= <-]. now exists r'.
  - intros [= <-]. exists r'.
    repeat split; trivial; discriminate.
Qed.

Lemma match_here_complete p t g rest :
  match_literal (ignorecase p) (literal p) t = Some (g ++ rest) ->
  g <> [] ->
  Forall (outside (excluded p)) g ->
  (rest = []
   \/ exists c r, rest = c :: r /\ existsb (N.eqb c) (excluded p) = true) ->
  (forall c, closing p = Some c -> exists r, rest = c :: r) ->
  match_here p t = Some g.
Proof.
  intros L Hne Hg Hr Hc. unfold match_here.
  rewrite L, (span_excluding_app _ _ _ Hg Hr).
  destruct g as [|c0 g0]; [congruence|].
  destruct (closing p) as [cl|]; trivial.
  destruct (Hc cl eq_refl) as (r & ->). now rewrite N.eqb_refl.
Qed.

Lemma search_header_match p headers raw :
  search p headers = Some raw -> header_match p headers raw.
Proof.
  intros H. apply search_Some in H as (pre & t & -> & H).
  apply match_here_spec in H as (rest & L & Hne & Hg & Hr & Hc).
  now exists pre, t, rest.
Qed.

Lemma header_match_found p headers raw :
  header_match p headers raw -> exists g, search p headers = Some g.
Proof.
  intros (pre & t & rest & -> & L & Hne & Hg & Hr & Hc).
  destruct (search p (pre ++ t)) as [g|] eqn:S; [now exists g|].
  pose proof (search_None _ _ S pre t eq_refl) as N.
  rewrite (match_here_complete p t raw rest L Hne Hg Hr Hc) in N.
  discriminate.
Qed.

Lemma strip_trimmed raw : trimmed_of raw (strip raw).
Proof.
  split; [|split].
  - destruct (strip_decomp raw) as (ws1 & ws2 & E & H1 & H2).
    now exists ws1, ws2.
  - intros c r. apply strip_head.
  - intros r c. apply strip_last.
Qed.

End HeaderMatch.

(** C6.  For a non-empty part that is not taken as the primary HTML, the
    data URI is  data:<content type>;base64,<base64 of the decoded bytes>.
    After the part is processed the map holds that URI under the
    Content-Location key when that header matched, and under cid: plus the
    Content-ID when a Content-ID: <...> header matched, whatever these keys
    held before; every other key keeps its value, [main_html] is untouched
    and keys stay unique.  The Content-Location key is the text that
    follows the header name up to the end of the line, without its leading
    and trailing whitespace; the Content-ID is the text between the angle
    brackets, without its leading and trailing whitespace; and a header
    that matches anywhere in the header block gives a key. *)
Theorem resource_registration :
  forall (st : state) (part : str),
    part_text part <> [] ->
    is_html part = false \/ main_html st <> None ->
    let uri := lit "data:" ++ content_type_of part ++ lit ";base64,"
               ++ b64encode (decoded_of part) in
    let st' := _process_part st part in
    (forall location,
        location_of part = Some location ->
        Dict.get (url_to_data_uri st') location = Some uri)
    /\ (forall id,
          cid_of part = Some id ->
          Dict.get (url_to_data_uri st') (lit "cid:" ++ id) = Some uri)
    /\ (forall k,
          location_of part <> Some k ->
          (forall id, cid_of part = Some id -> k <> lit "cid:" ++ id) ->
          Dict.get (url_to_data_uri st') k = Dict.get (url_to_data_uri st) k)
    /\ main_html st' = main_html st
    /\ (NoDup (Dict.keys (url_to_data_uri st)) ->
        NoDup (Dict.keys (url_to_data_uri st')))
    /\ (forall location,
          location_of part = Some location ->
          exists raw,
            header_match re_location (headers_of part) raw
            /\ trimmed_of raw location)
    /\ (forall id,
          cid_of part = Some id ->
          exists raw,
            header_match re_cid (headers_of part) raw /\ trimmed_of raw id)
    /\ (forall raw,
          header_match re_location (headers_of part) raw ->
          exists location,
            location_of part = Some location
            /\ Dict.get (url_to_data_uri st') location = Some uri)
    /\ (forall raw,
          header_match re_cid (headers_of part) raw ->
          exists id,
            cid_of part = Some id
            /\ Dict.get (url_to_data_uri st') (lit "cid:" ++ id) = Some uri).
Proof.
  intros st part Hne Hres uri st'.
  destruct (store_resource_entries st part Hne Hres)
    as (Hloc & Hcid & Hother & Hmain & Hnd).
  fold uri in Hloc, Hcid. fold st' in Hloc, Hcid, Hother, Hmain, Hnd.
  repeat (split; [assumption|]).
  split; [|split; [|split]].
  - intros location. unfold location_of.
    destruct (Re.search re_location (headers_of part)) as [g|] eqn:S;
      [|discriminate].
    intros [= <-]. exists g. split.
    + now apply search_header_match.
    + apply strip_trimmed.
  - intros id. unfold cid_of.
    destruct (Re.search re_cid (headers_of part)) as [g|] eqn:S;
      [|discriminate].
    intros [= <-]. exists g. split.
    + now apply search_header_match.
    + apply strip_trimmed.
  - intros raw H. apply header_match_found in H as (g & S).
    assert (L : location_of part = Some (strip g))
      by (unfold location_of; now rewrite S).
    exists (strip g). split; [exact L | now apply Hloc].
  - intros raw H. apply header_match_found in H as (g & S).
    assert (L : cid_of part = Some (strip g))
      by (unfold cid_of; now rewrite S).
    exists (strip g). split; [exact L | now apply Hcid].
Qed.

Lemma resource_registration_witness :
  Dict.get (url_to_data_uri (_process_part init sample_padded))
           (lit "img/logo.png")
  = Some (lit "data:image/png;base64,iVBORw0KGgo=")
  /\ Dict.get (url_to_data_uri (_process_part init sample_padded))
              (lit "cid:logo")
     = Some (lit "data:image/png;base64,iVBORw0KGgo=")
  /\ (exists raw,
         header_match re_location (headers_of sample_padded) raw
         /\ trimmed_of raw (lit "img/logo.png")).
Proof.
  destruct (resource_registration init sample_padded)
    as (Hloc & Hcid & _ & _ & _ & Htrim & _).
  - vm_compute. discriminate.
  - left. vm_compute. reflexivity.
  - split; [|split].
    + rewrite (Hloc (lit "img/logo.png")); vm_compute; reflexivity.
    + change (lit "cid:logo") with (lit "cid:" ++ lit "logo").
      rewrite (Hcid (lit "logo")); vm_compute; reflexivity.
    + apply Htrim. vm_compute. reflexivity.
Defined.

(** The padding of the two header values is not part of the keys. *)
Example padded_headers_give_trimmed_keys :
  url_to_data_uri (_process_part init sample_padded)
  = [(lit "img/logo.png", lit "data:image/png;base64,iVBORw0KGgo=");
     (lit "cid:logo", lit "data:image/png;base64,iVBORw0KGgo=")].
Proof. vm_compute. reflexivity. Qed.

(** ** C7: line endings *)

Section TextMode.













End TextMode.



(** A file with CR LF line endings, the blank lines after the headers
    included, is converted like its LF form. *)
Example crlf_file_converted :
  convert (universal_newlines (join [CR; LF] sample_lines))
  = Written (lit "<p>hello</p>") [INFO_saved]
  /\ url_to_data_uri
       (run [[LF] ++ lit "Content-Type: text/html" ++ [LF; LF]
             ++ lit "<p>hello</p>" ++ [LF];
             [LF] ++ lit "Content-Location: a" ++ [LF; LF]
             ++ lit "BODY" ++ [LF]] init)
     = [(lit "a", lit "data:application/octet-stream;base64,Qk9EWQ==")].
Proof. split; vm_compute; reflexivity. Qed.
